(** * zlog-discord: the push-queue forwarder of [discord_bot.py]

    A shallow embedding of [src/zlog-discord/discord_bot.py]: the
    [PushNotification] record and its formatter, the channel-map parser,
    the channel resolver with its handle cache, and the
    fetch / deliver / delete poll loop of [PushQueueDiscordClient].

    Conventions.
    - A Python [str] is a [string]; one [ascii] stands for one character, so
      the model covers the code points below 256.  [len] is [String.length].
    - A Python [int] is a [Z]; [Optional[T]] is [option T] with [None] for
      Python's [None].
    - The Discord client library and the database are outside the program.
      Their answers are read from a [World] of oracles indexed by the number
      of external calls made so far; every call is recorded in a trace.
    - A raised exception carries its class: [except Exception] catches the
      instances of [Exception] and lets every other [BaseException]
      (for instance [asyncio.CancelledError]) through. *)

From Stdlib Require Import ZArith Ascii String List Lia Bool.
From stdpp Require Import base option list sorting strings gmap.

Local Open Scope string_scope.
Local Open Scope list_scope.
Local Open Scope Z_scope.

(** ** Python string primitives *)

Module PyStr.

Definition LF : ascii := ascii_of_nat 10.

(** [str.isspace] on one character, for the code points below 256:
    TAB, LF, VT, FF, CR, FS, GS, RS, US, SPACE, NEL and NBSP. *)
Definition isspace (c : ascii) : bool :=
  let n := nat_of_ascii c in
  ((9 <=? n) && (n <=? 13) || (28 <=? n) && (n <=? 32)
   || (n =? 133) || (n =? 160))%nat.

Fixpoint lstrip (s : string) : string :=
  match s with
  | String c s' => if isspace c then lstrip s' else s
  | EmptyString => EmptyString
  end.

Fixpoint rstrip (s : string) : string :=
  match s with
  | String c s' =>
      match rstrip s' with
      | EmptyString => if isspace c then EmptyString else String c EmptyString
      | r => String c r
      end
  | EmptyString => EmptyString
  end.

(** [s.strip()] *)
Definition strip (s : string) : string := rstrip (lstrip s).

(** [s[:n]] *)
Fixpoint take (n : nat) (s : string) : string :=
  match n, s with
  | S n', String c s' => String c (take n' s')
  | _, _ => EmptyString
  end.

(** [len(s)] *)
Definition len (s : string) : nat := String.length s.

(** Truth value of an [Optional[str]]: [None] and the empty string are false. *)
Definition truthy (o : option string) : bool :=
  match o with
  | Some (String _ _) => true
  | _ => false
  end.

(** [a or b] where [b] is a [str]. *)
Definition or_str (a : option string) (b : string) : string :=
  match a with
  | Some (String c s) => String c s
  | _ => b
  end.

(** [a or b] where both are [Optional[str]]. *)
Definition or_opt (a b : option string) : option string :=
  if truthy a then a else b.

(** [sep in s] for a one-character [sep]. *)
Fixpoint contains (sep : ascii) (s : string) : bool :=
  match s with
  | String c s' => if Ascii.eqb c sep then true else contains sep s'
  | EmptyString => false
  end.

(** [s.split(sep)] for a one-character [sep]: never empty, one more
    piece than there are separators. *)
Fixpoint split (sep : ascii) (s : string) : list string :=
  match s with
  | String c s' =>
      if Ascii.eqb c sep then EmptyString :: split sep s'
      else match split sep s' with
           | p :: ps => String c p :: ps
           | [] => [String c EmptyString]
           end
  | EmptyString => [EmptyString]
  end.

(** [s.split(sep, 1)] when [sep in s]: the text before the first
    separator and the text after it. *)
Fixpoint split1 (sep : ascii) (s : string) : string * string :=
  match s with
  | String c s' =>
      if Ascii.eqb c sep then (EmptyString, s')
      else let '(a, b) := split1 sep s' in (String c a, b)
  | EmptyString => (EmptyString, EmptyString)
  end.

Definition is_digit (c : ascii) : bool :=
  let n := nat_of_ascii c in ((48 <=? n) && (n <=? 57))%nat.

Definition digit_val (c : ascii) : Z := Z.of_nat (nat_of_ascii c) - 48.

(** The digit part of an [int] literal: decimal digits, with single
    underscores allowed between two digits.  [prev] tells whether the
    previous character was a digit. *)
Fixpoint digits (prev : bool) (acc : Z) (s : string) : option Z :=
  match s with
  | EmptyString => if prev then Some acc else None
  | String c s' =>
      if is_digit c then digits true (10 * acc + digit_val c) s'
      else if Ascii.eqb c "_" then
             (if prev then
                match s' with
                | String d _ => if is_digit d then digits false acc s' else None
                | EmptyString => None
                end
              else None)
      else None
  end.

(** The white space that [int] skips around a number: TAB, LF, VT, FF, CR
    and SPACE, and NEL and NBSP, which it first turns into spaces.  The
    separators FS, GS, RS and US, which [str.strip] removes, are not
    skipped: [int] raises on them. *)
Definition int_isspace (c : ascii) : bool :=
  let n := nat_of_ascii c in
  ((9 <=? n) && (n <=? 13) || (n =? 32) || (n =? 133) || (n =? 160))%nat.

Fixpoint int_lstrip (s : string) : string :=
  match s with
  | String c s' => if int_isspace c then int_lstrip s' else s
  | EmptyString => EmptyString
  end.

Fixpoint int_rstrip (s : string) : string :=
  match s with
  | String c s' =>
      match int_rstrip s' with
      | EmptyString => if int_isspace c then EmptyString else String c EmptyString
      | r => String c r
      end
  | EmptyString => EmptyString
  end.

(** Number of decimal digits of a literal, underscores not counted. *)
Fixpoint count_digits (s : string) : nat :=
  match s with
  | String c s' => if is_digit c then S (count_digits s') else count_digits s'
  | EmptyString => O
  end.

(** [sys.int_info.default_max_str_digits]: a literal with more digits is
    refused with [ValueError]. *)
Definition int_max_str_digits : nat := 4300.

(** [int(s)] in base 10; [None] stands for [ValueError].  White space
    around the number is skipped, one sign is accepted, and the number of
    digits is capped by the interpreter's default limit. *)
Definition int (s : string) : option Z :=
  let literal := int_rstrip (int_lstrip s) in
  let '(negative, body) :=
    match literal with
    | String "+" s' => (false, s')
    | String "-" s' => (true, s')
    | s' => (false, s')
    end in
  match digits false 0 body with
  | Some v =>
      if (int_max_str_digits <? count_digits body)%nat then None
      else Some (if negative then - v else v)
  | None => None
  end.

End PyStr.

(** ** Log records, one constructor per logging call of the module *)

(** A raised exception, by class. *)
Inductive raised : Type :=
| ExceptionInstance (what : string)   (* isinstance(e, Exception) *)
| BaseExceptionOnly (what : string).  (* CancelledError, KeyboardInterrupt, ... *)

Definition is_Exception (e : raised) : bool :=
  match e with
  | ExceptionInstance _ => true
  | BaseExceptionOnly _ => false
  end.

Inductive LogRecord : Type :=
| WarnTruncated (id : Z)
    (* "Push %s message truncated to fit Discord limits" *)
| ErrNoChannelMapping (id : Z) (recipient : option string)
    (* "Skipping push %s because no channel mapping exists for recipient %s" *)
| ErrChannelNotFetched (id channel_id : Z)
    (* "Skipping push %s because channel %s could not be fetched" *)
| ExcSendFailed (id : Z) (e : raised)
    (* "Failed to send push %s to Discord" *)
| WarnRecipientNotInMap (recipient : option string) (default_channel_id : Z)
    (* "Recipient %s not in channel map; using default channel %s" *)
| ExcFetchChannelFailed (channel_id : Z) (e : raised)
    (* "Failed to fetch channel %s" *)
| ErrNotMessageable (channel_id : Z)
    (* "Channel %s is not messageable" *)
| ExcUnexpected (e : raised)
    (* "Unexpected error while forwarding notifications" *)
| WarnMalformedEntry (entry : string)
    (* "Ignoring malformed channel mapping entry: %s" *)
| WarnInvalidChannelId (channel_id recipient : string).
    (* "Invalid channel ID '%s' for recipient '%s' in DISCORD_CHANNEL_MAP" *)

(** ** [PushNotification] and its formatter *)

Record PushNotification : Type := {
  id : Z;
  network : string;
  window : string;
  type : string;
  user : option string;
  nick : option string;
  message : option string;
  recipient : option string;
}.

(** The local [content] of [to_discord_message]. *)
Definition content_of (self : PushNotification) : string :=
  let header := "[" +:+ network self +:+ "] " +:+ window self +:+ " (" +:+ type self +:+ ")" in
  let author := PyStr.or_str (PyStr.or_opt (nick self) (user self)) "Unknown" in
  let body := PyStr.or_str (message self) EmptyString in
  PyStr.strip (header +:+ String PyStr.LF (author +:+ ": " +:+ body)).

(** [PushNotification.to_discord_message]: the text and what it logged. *)
Definition to_discord_message (self : PushNotification) : string * list LogRecord :=
  let content := content_of self in
  if (2000 <? PyStr.len content)%nat then
    let truncated := PyStr.take 1997 content +:+ "..." in
    (truncated, [WarnTruncated (id self)])
  else (content, []).


(** ** [parse_channel_map] *)

(** One turn of the [for entry in raw_mapping.split(",")] loop: the mapping
    and the warnings logged so far, before and after the entry. *)
Definition parse_entry (acc : gmap string Z * list LogRecord) (entry : string)
  : gmap string Z * list LogRecord :=
  let '(mapping, logs) := acc in
  if negb (PyStr.truthy (Some (PyStr.strip entry))) then acc
  else if negb (PyStr.contains "=" entry) then
    (mapping, logs ++ [WarnMalformedEntry entry])
  else
    let '(a, b) := PyStr.split1 "=" entry in
    let recipient := PyStr.strip a in
    let channel_id := PyStr.strip b in
    if negb (PyStr.truthy (Some recipient)) || negb (PyStr.truthy (Some channel_id)) then
      (mapping, logs ++ [WarnMalformedEntry entry])
    else
      match PyStr.int channel_id with
      | Some v => (<[recipient := v]> mapping, logs)
      | None => (mapping, logs ++ [WarnInvalidChannelId channel_id recipient])
      end.

Definition parse_channel_map (raw_mapping : option string)
  : gmap string Z * list LogRecord :=
  match raw_mapping with
  | Some (String c s) => fold_left parse_entry (PyStr.split "," (String c s)) (∅, [])
  | _ => (∅, [])
  end.

(** ** The outside world: database and Discord client library *)

Module Models.
(** A row of the [push] table ([models.Push]). *)
Record Push : Type := {
  id : Z;
  network : string;
  window : string;
  type : string;
  user : option string;
  nick : option string;
  message : option string;
  recipient : option string;
}.
End Models.

(** A channel object handed out by the client library: its identity and
    whether [isinstance(channel, Messageable)] holds. *)
Record Channel : Type := {
  handle : N;
  messageable : bool;
}.

(** Result of a call that may raise. *)
Inductive outcome (A : Type) : Type :=
| Ok (a : A)
| Raise (e : raised).
Arguments Ok {A} a.
Arguments Raise {A} e.

(** The calls that leave the program, in the order they are made. *)
Inductive Event : Type :=
| CallWaitUntilReady
| CallIsClosed
| CallSelect                                  (* SELECT ... FROM push ORDER BY id *)
| CallDelete (row_id : Z)                     (* DELETE FROM push WHERE id = row_id *)
| CallGetChannel (channel_id : Z)             (* self.get_channel *)
| CallFetchChannel (channel_id : Z)           (* self.fetch_channel *)
| CallSend (channel : Channel) (text : string) (* channel.send *)
| CallSleep.                                  (* asyncio.sleep(self._poll_interval) *)

(** What the outside answers; the [nat] is the number of calls made before
    this one. *)
Record World : Type := {
  wait_until_ready_result : nat -> option raised;
  is_closed_result : nat -> bool;
  select_result : nat -> option raised;
  delete_result : nat -> Z -> option raised;
  get_channel_result : nat -> Z -> option Channel;
  fetch_channel_result : nat -> Z -> outcome Channel;
  send_result : nat -> Channel -> string -> option raised;
  sleep_result : nat -> option raised;
}.

(** The mutable state: the [push] table, the client's [_channel_cache],
    the log and the trace of outside calls. *)
Record State : Type := {
  store : list Models.Push;
  channel_cache : gmap Z Channel;
  logged : list LogRecord;
  trace : list Event;
}.

(** ** A state-and-exception monad *)

Definition M (A : Type) : Type := State -> outcome A * State.

Definition ret {A} (a : A) : M A := fun st => (Ok a, st).

Definition raise {A} (e : raised) : M A := fun st => (Raise e, st).

Definition bind {A B} (m : M A) (k : A -> M B) : M B :=
  fun st =>
    match m st with
    | (Ok a, st') => k a st'
    | (Raise e, st') => (Raise e, st')
    end.

Notation "x <- m ;; k" := (bind m (fun x => k))
  (at level 100, m at next level, right associativity).
Notation "m ;;; k" := (bind m (fun _ => k))
  (at level 100, k at level 200, right associativity).

(** [try: body except Exception as e: handler e] *)
Definition try_except {A} (body : M A) (handler : raised -> M A) : M A :=
  fun st =>
    match body st with
    | (Raise e, st') => if is_Exception e then handler e st' else (Raise e, st')
    | r => r
    end.

Definition get_state : M State := fun st => (Ok st, st).

(** State updates. *)
Definition add_logs (rs : list LogRecord) (st : State) : State :=
  {| store := store st; channel_cache := channel_cache st;
     logged := logged st ++ rs; trace := trace st |}.

Definition add_events (evs : list Event) (st : State) : State :=
  {| store := store st; channel_cache := channel_cache st;
     logged := logged st; trace := trace st ++ evs |}.

Definition with_store (rows : list Models.Push) (st : State) : State :=
  {| store := rows; channel_cache := channel_cache st;
     logged := logged st; trace := trace st |}.

Definition with_cached (channel_id : Z) (channel : Channel) (st : State) : State :=
  {| store := store st;
     channel_cache := <[channel_id := channel]> (channel_cache st);
     logged := logged st; trace := trace st |}.

Definition log (r : LogRecord) : M unit :=
  fun st => (Ok tt, add_logs [r] st).

Definition log_all (rs : list LogRecord) : M unit :=
  fun st => (Ok tt, add_logs rs st).

(** Record an outside call and return its index. *)
Definition call (ev : Event) : M nat :=
  fun st => (Ok (length (trace st)), add_events [ev] st).

Definition set_store (rows : list Models.Push) : M unit :=
  fun st => (Ok tt, with_store rows st).

Definition cache_channel (channel_id : Z) (channel : Channel) : M unit :=
  fun st => (Ok tt, with_cached channel_id channel st).

(** [raise e] when the outside answered with an exception. *)
Definition check (r : option raised) : M unit :=
  match r with
  | Some e => raise e
  | None => ret tt
  end.

(** ** [PushQueueDiscordClient] *)

(** [ORDER BY id] of the database. *)
Definition id_le (a b : Models.Push) : Prop := Models.id a ≤ Models.id b.

Global Instance id_le_dec : RelDecision id_le.
Proof. intros a b. unfold id_le. apply _. Defined.

Global Instance id_le_total : Total id_le.
Proof. intros a b. unfold id_le. lia. Qed.

Global Instance id_le_trans : Transitive id_le.
Proof. intros a b c. unfold id_le. lia. Qed.

Definition order_by_id (rows : list Models.Push) : list Models.Push :=
  merge_sort id_le rows.

(** The [PushNotification(...)] built from a row. *)
Definition notification_of_row (row : Models.Push) : PushNotification :=
  {| id := Models.id row;
     network := Models.network row;
     window := Models.window row;
     type := Models.type row;
     user := Models.user row;
     nick := Models.nick row;
     message := Models.message row;
     recipient := Models.recipient row |}.

(** [await asyncio.to_thread(f, ...)]: the value or the exception of [f]. *)
Definition to_thread {A} (f : M A) : M A := f.

Section Client.

Variable W : World.
(** [self._channel_map] and [self._default_channel_id], fixed at
    construction. *)
Variable _channel_map : gmap string Z.
Variable _default_channel_id : Z.

Definition _fetch_pending_notifications : M (list PushNotification) :=
  t <- call CallSelect ;;
  check (select_result W t) ;;;
  st <- get_state ;;
  let rows := order_by_id (store st) in
  ret (notification_of_row <$> rows).

Definition _delete_push_row (row_id : Z) : M unit :=
  t <- call (CallDelete row_id) ;;
  check (delete_result W t row_id) ;;;
  st <- get_state ;;
  set_store (filter (fun row => Models.id row ≠ row_id) (store st)).

(** [recipient in self._channel_map] *)
Definition in_channel_map (recipient : option string) : bool :=
  match recipient with
  | Some r => bool_decide (is_Some (_channel_map !! r))
  | None => false
  end.

Definition _resolve_channel_id (recipient : option string) : M (option Z) :=
  if PyStr.truthy recipient && in_channel_map recipient then
    ret (recipient ≫= (_channel_map !!.))
  else
    (if PyStr.truthy recipient && negb (bool_decide (recipient = Some "self")) then
       log (WarnRecipientNotInMap recipient _default_channel_id)
     else ret tt) ;;;
    ret (Some _default_channel_id).

Definition _fetch_channel (channel_id : Z) : M (option Channel) :=
  st <- get_state ;;
  match channel_cache st !! channel_id with
  | Some channel => ret (Some channel)
  | None =>
      t <- call (CallGetChannel channel_id) ;;
      found <- match get_channel_result W t channel_id with
               | Some channel => ret (Some channel)
               | None =>
                   try_except
                     (t' <- call (CallFetchChannel channel_id) ;;
                      match fetch_channel_result W t' channel_id with
                      | Ok channel => ret (Some channel)
                      | Raise e => raise e
                      end)
                     (fun e =>
                        log (ExcFetchChannelFailed channel_id e) ;;;
                        ret None)
               end ;;
      match found with
      | None => ret None (* the [return None] of the except clause *)
      | Some channel =>
          if messageable channel then
            cache_channel channel_id channel ;;;
            ret (Some channel)
          else
            log (ErrNotMessageable channel_id) ;;;
            ret None
      end
  end.

(** The body of the [for notification in notifications] loop; every
    [continue] ends it. *)
Definition deliver_one (notification : PushNotification) : M unit :=
  channel_id <- _resolve_channel_id (recipient notification) ;;
  match channel_id with
  | None =>
      log (ErrNoChannelMapping (id notification) (recipient notification))
  | Some channel_id =>
      channel <- _fetch_channel channel_id ;;
      match channel with
      | None => log (ErrChannelNotFetched (id notification) channel_id)
      | Some channel =>
          sent <- try_except
                    (let '(text, warnings) := to_discord_message notification in
                     log_all warnings ;;;
                     t <- call (CallSend channel text) ;;
                     check (send_result W t channel text) ;;;
                     ret true)
                    (fun e =>
                       log (ExcSendFailed (id notification) e) ;;;
                       ret false) ;;
          if sent then to_thread (_delete_push_row (id notification))
          else ret tt
      end
  end.

Fixpoint _deliver_notifications (notifications : list PushNotification) : M unit :=
  match notifications with
  | [] => ret tt
  | notification :: rest =>
      deliver_one notification ;;;
      _deliver_notifications rest
  end.

(** The statements under [try:] in the loop body. *)
Definition poll_body : M unit :=
  notifications <- to_thread _fetch_pending_notifications ;;
  match notifications with
  | [] => ret tt
  | _ :: _ => _deliver_notifications notifications
  end.

(** The [try ... except Exception] statement of the loop body. *)
Definition poll_once : M unit :=
  try_except poll_body (fun e => log (ExcUnexpected e)).

Definition sleep : M unit :=
  t <- call CallSleep ;;
  check (sleep_result W t).

(** How a bounded run of the loop ended. *)
Inductive loop_end : Type :=
| LoopExited      (* [self.is_closed()] became true *)
| StillRunning.   (* the bound on the number of cycles was reached *)

(** [while not self.is_closed(): ...], for at most [cycles] cycles. *)
Fixpoint while_not_closed (cycles : nat) : M loop_end :=
  match cycles with
  | O => ret StillRunning
  | S cycles' =>
      t <- call CallIsClosed ;;
      if is_closed_result W t then ret LoopExited
      else
        poll_once ;;;
        sleep ;;;
        while_not_closed cycles'
  end.

Definition _forward_notifications_loop (cycles : nat) : M loop_end :=
  t <- call CallWaitUntilReady ;;
  check (wait_until_ready_result W t) ;;;
  while_not_closed cycles.

End Client.

(** ** The format and the resolution as the specification words them *)

(** Author: [nick] if non-empty, else [user] if non-empty, else
    ["Unknown"]. *)
Definition spec_author (n : PushNotification) : string :=
  match nick n with
  | Some (String c s) => String c s
  | _ =>
      match user n with
      | Some (String c s) => String c s
      | _ => "Unknown"
      end
  end.

(** Body: [message] or the empty string. *)
Definition spec_body (n : PushNotification) : string :=
  match message n with
  | Some s => s
  | None => EmptyString
  end.

(** ["{header}\n{author}: {body}"], trimmed. *)
Definition spec_format (n : PushNotification) : string :=
  PyStr.strip
    (("[" +:+ network n +:+ "] " +:+ window n +:+ " (" +:+ type n +:+ ")")
       +:+ String PyStr.LF EmptyString +:+ spec_author n +:+ ": " +:+ spec_body n).

(** The recipient is present, non-empty and a key of the mapping. *)
Definition mapped_to (m : gmap string Z) (recipient : option string) (v : Z) : Prop :=
  ∃ r, recipient = Some r ∧ r ≠ EmptyString ∧ m !! r = Some v.

(** The recipient is present, non-empty, not ["self"] and not a key. *)
Definition unknown_recipient (m : gmap string Z) (recipient : option string) : Prop :=
  ∃ r, recipient = Some r ∧ r ≠ EmptyString ∧ r ≠ "self" ∧ m !! r = None.

(** An entry [recipient=id] of the channel map that binds [k] to [v]. *)
Definition well_formed (entry k : string) (v : Z) : Prop :=
  PyStr.contains "=" entry = true
  ∧ PyStr.strip (PyStr.split1 "=" entry).1 = k
  ∧ k ≠ EmptyString
  ∧ PyStr.int (PyStr.strip (PyStr.split1 "=" entry).2) = Some v.

(** ** Sample data *)

(** ["a" * n] *)
Fixpoint repeat_char (c : ascii) (n : nat) : string :=
  match n with
  | O => EmptyString
  | S n' => String c (repeat_char c n')
  end.

Definition alice_hi : PushNotification :=
  {| id := 1; network := "n"; window := "w"; type := "msg";
     user := None; nick := Some "alice"; message := Some "hi";
     recipient := None |}.

Definition long_push : PushNotification :=
  {| id := 2; network := "n"; window := "w"; type := "msg";
     user := None; nick := Some "alice";
     message := Some (repeat_char "a" 2000);
     recipient := None |}.


(** ** Vocabulary for the properties *)

(** [st'] is [st] with the events [evs] and the log records [logs] added,
    possibly more channels cached, and the same rows. *)
Definition grows (st st' : State) (evs : list Event) (logs : list LogRecord) : Prop :=
  store st' = store st
  ∧ trace st' = trace st ++ evs
  ∧ logged st' = logged st ++ logs
  ∧ channel_cache st ⊆ channel_cache st'.

Definition resolution_event (cid : Z) (ev : Event) : Prop :=
  ev = CallGetChannel cid ∨ ev = CallFetchChannel cid.

Definition resolution_log (cid : Z) (r : LogRecord) : Prop :=
  (∃ e, r = ExcFetchChannelFailed cid e) ∨ r = ErrNotMessageable cid.

(** The record's text as sent. *)
Definition text_of (n : PushNotification) : string := (to_discord_message n).1.

(** Log records that the delivery of [n] can add, with default channel id
    [d]. *)
Definition delivery_log (d : Z) (n : PushNotification) (r : LogRecord) : Prop :=
  r = WarnRecipientNotInMap (recipient n) d
  ∨ (∃ z, resolution_log z r)
  ∨ (∃ z, r = ErrChannelNotFetched (id n) z)
  ∨ r = WarnTruncated (id n)
  ∨ (∃ e, r = ExcSendFailed (id n) e).

(** How the processing of one record ends. *)
Inductive one_record (W : World) (n : PushNotification) (st : State) (t : nat)
  : outcome unit → State → list Event → Prop :=
| NotSent r st' :
    store st' = store st →
    one_record W n st t r st' []
| SendFailed ch e st' :
    send_result W t ch (text_of n) = Some e →
    store st' = store st →
    last (logged st') = Some (ExcSendFailed (id n) e) →
    is_Exception e = true →
    one_record W n st t (Ok tt) st' [CallSend ch (text_of n)]
| SendInterrupted ch e st' :
    send_result W t ch (text_of n) = Some e →
    store st' = store st →
    is_Exception e = false →
    one_record W n st t (Raise e) st' [CallSend ch (text_of n)]
| DeleteFailed ch e st' :
    send_result W t ch (text_of n) = None →
    delete_result W (S t) (id n) = Some e →
    store st' = store st →
    one_record W n st t (Raise e) st'
      [CallSend ch (text_of n); CallDelete (id n)]
| Delivered ch st' :
    send_result W t ch (text_of n) = None →
    delete_result W (S t) (id n) = None →
    store st' = filter (λ row, Models.id row ≠ id n) (store st) →
    one_record W n st t (Ok tt) st'
      [CallSend ch (text_of n); CallDelete (id n)].


(** Ids deleted and texts sent, in the order of the calls. *)
Definition deleted_ids (evs : list Event) : list Z :=
  omap (λ ev, match ev with CallDelete i => Some i | _ => None end) evs.

Definition sent_texts (evs : list Event) : list string :=
  omap (λ ev, match ev with CallSend _ text => Some text | _ => None end) evs.

(** The state after the send of [n] through [ch] raised [e] and the
    handler logged it, starting from [st2]. *)
Definition after_failed_send (n : PushNotification) (ch : Channel) (e : raised)
    (st2 : State) : State :=
  add_logs [ExcSendFailed (id n) e]
    (add_events [CallSend ch (text_of n)]
       (add_logs (to_discord_message n).2 st2)).

(** ** Proof automation *)

Ltac footprint :=
  unfold grows, resolution_event, resolution_log;
  repeat split; cbn; rewrite ?app_nil_r, <- ?app_assoc; try done;
  try (by apply insert_subseteq);
  try (intros ? [= <-]; apply lookup_insert_eq);
  repeat (apply Forall_cons; split); try apply Forall_nil; eauto.

Ltac run :=
  unfold bind, ret, raise, log, log_all, call, check, try_except, get_state,
    set_store, cache_channel, to_thread; cbn.

(** ** Sample worlds and stores *)

(** Every outside call succeeds; every channel is known to the client's
    own cache and can receive text. *)
Definition calm : World :=
  {| wait_until_ready_result := λ _, None;
     is_closed_result := λ _, false;
     select_result := λ _, None;
     delete_result := λ _ _, None;
     get_channel_result := λ _ cid, Some {| handle := Z.to_N cid; messageable := true |};
     fetch_channel_result := λ _ cid, Raise (ExceptionInstance "NotFound");
     send_result := λ _ _ _, None;
     sleep_result := λ _, None |}.

(** As [calm], but every send fails with an HTTP error. *)
Definition send_fails : World :=
  {| wait_until_ready_result := λ _, None;
     is_closed_result := λ _, false;
     select_result := λ _, None;
     delete_result := λ _ _, None;
     get_channel_result := λ _ cid, Some {| handle := Z.to_N cid; messageable := true |};
     fetch_channel_result := λ _ cid, Raise (ExceptionInstance "NotFound");
     send_result := λ _ _ _, Some (ExceptionInstance "HTTPException");
     sleep_result := λ _, None |}.

(** As [calm], but no channel can be resolved. *)
Definition no_channel : World :=
  {| wait_until_ready_result := λ _, None;
     is_closed_result := λ _, false;
     select_result := λ _, None;
     delete_result := λ _ _, None;
     get_channel_result := λ _ _, None;
     fetch_channel_result := λ _ cid, Raise (ExceptionInstance "NotFound");
     send_result := λ _ _ _, None;
     sleep_result := λ _, None |}.

(** As [calm], but the database query is interrupted by the cancellation
    of the task. *)
Definition cancelled : World :=
  {| wait_until_ready_result := λ _, None;
     is_closed_result := λ _, false;
     select_result := λ _, Some (BaseExceptionOnly "CancelledError");
     delete_result := λ _ _, None;
     get_channel_result := λ _ cid, Some {| handle := Z.to_N cid; messageable := true |};
     fetch_channel_result := λ _ cid, Raise (ExceptionInstance "NotFound");
     send_result := λ _ _ _, None;
     sleep_result := λ _, None |}.

(** As [calm], but the database is unreachable. *)
Definition db_down : World :=
  {| wait_until_ready_result := λ _, None;
     is_closed_result := λ _, false;
     select_result := λ _, Some (ExceptionInstance "OperationalError");
     delete_result := λ _ _, None;
     get_channel_result := λ _ cid, Some {| handle := Z.to_N cid; messageable := true |};
     fetch_channel_result := λ _ cid, Raise (ExceptionInstance "NotFound");
     send_result := λ _ _ _, None;
     sleep_result := λ _, None |}.

Definition sample_row (i : Z) (text : string) : Models.Push :=
  {| Models.id := i; Models.network := "n"; Models.window := "w";
     Models.type := "msg"; Models.user := None; Models.nick := Some "alice";
     Models.message := Some text; Models.recipient := Some "self" |}.

Definition fresh (rows : list Models.Push) : State :=
  {| store := rows; channel_cache := ∅; logged := []; trace := [] |}.

(** Rows with ids 5, 3, 9, in that physical order. *)
Definition rows_539 : list Models.Push :=
  [sample_row 5 "five"; sample_row 3 "three"; sample_row 9 "nine"].

(** ** Start-up: [main.py] and [create_session_factory] *)

(** What start-up can raise: the [RuntimeError]s of the program itself, or
    whatever a library call raised. *)
Inductive StartupError : Type :=
| RuntimeError (msg : string)
| LibraryError (e : raised).

Inductive startup (A : Type) : Type :=
| Started (a : A)
| Failed (e : StartupError).
Arguments Started {A} a.
Arguments Failed {A} e.

(** The arguments of [_create_engine], kept by the session factory. *)
Record SessionFactory : Type := {
  db_username : string;
  db_password : string;
  db_host : string;
  db_database : string;
}.

(** [os.getenv(name)] over the environment as it is after [load_dotenv()]. *)
Definition getenv (env : gmap string string) (name : string) : option string :=
  env !! name.

(** [_create_engine]: the engine is built lazily by the library, no
    connection is made. *)
Definition _create_engine (username password host database : string) : SessionFactory :=
  {| db_username := username; db_password := password;
     db_host := host; db_database := database |}.

Definition create_session_factory (env : gmap string string) : startup SessionFactory :=
  let username := getenv env "DATABASE_USERNAME" in
  let password := getenv env "DATABASE_PASSWORD" in
  let host := getenv env "DATABASE_HOST" in
  let database := getenv env "DATABASE" in
  if negb (forallb PyStr.truthy [username; password; host; database]) then
    Failed (RuntimeError
      ("Missing one or more database env vars: DATABASE_USERNAME, DATABASE_PASSWORD, "
       +:+ "DATABASE_HOST, DATABASE"))
  else
    Started (_create_engine (default EmptyString username) (default EmptyString password)
               (default EmptyString host) (default EmptyString database)).

Definition _read_int_env (env : gmap string string) (var_name : string) : startup Z :=
  match getenv env var_name with
  | None =>
      Failed (RuntimeError ("Missing required environment variable: " +:+ var_name))
  | Some value =>
      match PyStr.int value with
      | Some v => Started v
      | None =>
          Failed (RuntimeError
                    ("Environment variable " +:+ var_name +:+ " must be an integer"))
      end
  end.

(** The arguments with which [main] builds and runs the client. *)
Record ClientArgs (F : Type) : Type := {
  arg_token : string;
  arg_session_factory : SessionFactory;
  arg_channel_map : gmap string Z;
  arg_default_channel_id : Z;
  arg_poll_interval : F;
}.
Arguments arg_token {F} _.
Arguments arg_session_factory {F} _.
Arguments arg_channel_map {F} _.
Arguments arg_default_channel_id {F} _.
Arguments arg_poll_interval {F} _.

Section Main.

(** Python's floats and the logging library are taken as given: [float s]
    is [None] when [float(s)] raises [ValueError], [le_zero x] is
    [x <= 0], and [basicConfig level] is what [logging.basicConfig]
    raises for the level name, if anything. *)
Variable F : Type.
Variable float : string → option F.
Variable le_zero : F → bool.
Variable basicConfig : string → option raised.

Definition _configure_logging (env : gmap string string) : option raised :=
  basicConfig (default "INFO" (getenv env "LOG_LEVEL")).

(** [main], up to the construction of the client: the arguments it would
    run the client with, or the error it raises, and the warnings logged
    on the way. *)
Definition main (env : gmap string string) : startup (ClientArgs F) * list LogRecord :=
  match _configure_logging env with
  | Some e => (Failed (LibraryError e), [])
  | None =>
      let token := getenv env "DISCORD_BOT_TOKEN" in
      if negb (PyStr.truthy token) then
        (Failed (RuntimeError "Missing required environment variable: DISCORD_BOT_TOKEN"), [])
      else
        match _read_int_env env "DISCORD_DEFAULT_CHANNEL_ID" with
        | Failed e => (Failed e, [])
        | Started default_channel_id =>
            let poll_interval_env := default "5" (getenv env "PUSH_POLL_INTERVAL") in
            match float poll_interval_env with
            | None => (Failed (RuntimeError "PUSH_POLL_INTERVAL must be a number"), [])
            | Some poll_interval =>
                if le_zero poll_interval then
                  (Failed (RuntimeError "PUSH_POLL_INTERVAL must be greater than zero"), [])
                else
                  match create_session_factory env with
                  | Failed e => (Failed e, [])
                  | Started session_factory =>
                      let '(channel_map, warnings) :=
                        parse_channel_map (getenv env "DISCORD_CHANNEL_MAP") in
                      (Started {| arg_token := default EmptyString token;
                                  arg_session_factory := session_factory;
                                  arg_channel_map := channel_map;
                                  arg_default_channel_id := default_channel_id;
                                  arg_poll_interval := poll_interval |},
                       warnings)
                  end
            end
        end
  end.

End Main.

(** ** More vocabulary for the properties *)

(** What follows a resolved channel in the loop body: the send, and the
    delete after it, in closed form. *)
Definition send_and_delete (W : World) (n : PushNotification) (ch : Channel)
    (st2 : State) : outcome unit * State :=
  let st3 := add_events [CallSend ch (text_of n)]
               (add_logs (to_discord_message n).2 st2) in
  match send_result W (length (trace st2)) ch (text_of n) with
  | Some e =>
      if is_Exception e then (Ok (), add_logs [ExcSendFailed (id n) e] st3)
      else (Raise e, st3)
  | None =>
      let st4 := add_events [CallDelete (id n)] st3 in
      match delete_result W (S (length (trace st2))) (id n) with
      | Some e => (Raise e, st4)
      | None =>
          (Ok (), with_store (filter (λ row, Models.id row ≠ id n) (store st2)) st4)
      end
  end.

(** Every cached handle can receive text. *)
Definition cache_ok (st : State) : Prop :=
  ∀ cid ch, channel_cache st !! cid = Some ch → messageable ch = true.

(** Channels that texts were sent to. *)
Definition sent_channels (evs : list Event) : list Channel :=
  omap (λ ev, match ev with CallSend ch _ => Some ch | _ => None end) evs.

(** Reading a trace from the left: [pace ready evs] is [None] when a
    database fetch comes while [ready] is false, that is without a sleep
    since the fetch before; otherwise it is the flag after [evs]. *)
Fixpoint pace (ready : bool) (evs : list Event) : option bool :=
  match evs with
  | [] => Some ready
  | CallSelect :: evs' => if ready then pace false evs' else None
  | CallSleep :: evs' => pace true evs'
  | _ :: evs' => pace ready evs'
  end.

(** Events of the delivery: neither a fetch nor a sleep. *)
Definition delivery_event (ev : Event) : Prop :=
  match ev with
  | CallGetChannel _ | CallFetchChannel _ | CallSend _ _ | CallDelete _ => True
  | _ => False
  end.

(** A world in which the client knows every channel, every channel can
    receive text, and no send or delete fails. *)
Definition untroubled (W : World) : Prop :=
  (∀ t cid, ∃ ch, get_channel_result W t cid = Some ch ∧ messageable ch = true)
  ∧ (∀ t ch text, send_result W t ch text = None)
  ∧ (∀ t i, delete_result W t i = None).

(** As [calm], but every delete fails. *)
Definition delete_fails : World :=
  {| wait_until_ready_result := λ _, None;
     is_closed_result := λ _, false;
     select_result := λ _, None;
     delete_result := λ _ _, Some (ExceptionInstance "OperationalError");
     get_channel_result := λ _ cid, Some {| handle := Z.to_N cid; messageable := true |};
     fetch_channel_result := λ _ cid, Raise (ExceptionInstance "NotFound");
     send_result := λ _ _ _, None;
     sleep_result := λ _, None |}.

(** An environment with which [main] starts. *)
Definition sample_env : gmap string string :=
  {[ "DISCORD_BOT_TOKEN" := "t0ken";
     "DISCORD_DEFAULT_CHANNEL_ID" := "7";
     "DATABASE_USERNAME" := "u"; "DATABASE_PASSWORD" := "p";
     "DATABASE_HOST" := "h"; "DATABASE" := "db";
     "DISCORD_CHANNEL_MAP" := "known=42,oops" ]}.

(** As [calm], but the client is closed after the first cycle. *)
Definition closes_later : World :=
  {| wait_until_ready_result := λ _, None;
     is_closed_result := λ t, (1 <? t)%nat;
     select_result := λ _, None;
     delete_result := λ _ _, None;
     get_channel_result := λ _ cid, Some {| handle := Z.to_N cid; messageable := true |};
     fetch_channel_result := λ _ cid, Raise (ExceptionInstance "NotFound");
     send_result := λ _ _ _, None;
     sleep_result := λ _, None |}.
(** * Properties *)

(** ** Strings *)

Lemma len_append (s t : string) :
  PyStr.len (s +:+ t) = (PyStr.len s + PyStr.len t)%nat.
Proof.
  unfold PyStr.len. induction s as [|c s IH]; simpl; [done | by rewrite IH].
Qed.

Lemma len_take (n : nat) (s : string) :
  PyStr.len (PyStr.take n s) = Nat.min n (PyStr.len s).
Proof.
  unfold PyStr.len. revert s.
  induction n as [|n IH]; intros [|c s]; simpl; try done.
  by rewrite IH.
Qed.

Lemma author_as_specified (n : PushNotification) :
  PyStr.or_str (PyStr.or_opt (nick n) (user n)) "Unknown" = spec_author n.
Proof.
  unfold spec_author, PyStr.or_opt, PyStr.or_str, PyStr.truthy.
  destruct (nick n) as [[|c s]|]; try done.
Qed.

Lemma body_as_specified (n : PushNotification) :
  PyStr.or_str (message n) EmptyString = spec_body n.
Proof.
  unfold spec_body, PyStr.or_str. by destruct (message n) as [[|c s]|].
Qed.

Lemma content_as_specified (n : PushNotification) :
  content_of n = spec_format n.
Proof.
  unfold content_of, spec_format.
  by rewrite author_as_specified, body_as_specified.
Qed.

(** ** The formatter *)

(** C4, as the code has it: for every record whose trimmed text has at
    most 2000 characters, the formatted message is the header
    ["[{network}] {window} ({type})"], a newline, then ["{author}: {body}"],
    with surrounding white space trimmed, where the author is [nick] if
    non-empty, else [user] if non-empty, else ["Unknown"], and the body is
    [message] or the empty string; nothing is logged.  The record with
    nick "alice", no user, message "hi", network "n", window "w" and type
    "msg" formats to exactly "[n] w (msg)", newline, "alice: hi". *)
Theorem C4_format_within_limit :
  (∀ n : PushNotification,
      (PyStr.len (spec_format n) <= 2000)%nat →
      to_discord_message n = (spec_format n, []))
  ∧ to_discord_message alice_hi
    = ("[n] w (msg)" +:+ String PyStr.LF "alice: hi", []).
Proof.
  split; [|reflexivity].
  intros n Hlen. unfold to_discord_message.
  rewrite content_as_specified.
  destruct (Nat.ltb_spec 2000 (PyStr.len (spec_format n))); [lia | done].
Qed.

Lemma C4_format_within_limit_witness :
  (PyStr.len (spec_format alice_hi) <= 2000)%nat
  ∧ to_discord_message alice_hi = (spec_format alice_hi, []).
Proof.
  split.
  - vm_compute. lia.
  - apply (proj1 C4_format_within_limit alice_hi). vm_compute. lia.
Defined.

(** C4 as written fails on a long record: the formatted message is not
    the trimmed text but a truncation of it. *)
Lemma C4_counterexample_long_record :
  (to_discord_message long_push).1 ≠ spec_format long_push.
Proof.
  intros H. apply (f_equal PyStr.len) in H. vm_compute in H. discriminate H.
Qed.

(** C5: when the trimmed text has more than 2000 characters the formatter
    returns its first 1997 characters followed by "...", a text of exactly
    2000 characters, and logs the truncation; when it has at most 2000
    characters the text is returned unchanged and nothing is logged.
    The formatter is a total function: it returns for every record. *)
Theorem C5_truncation (n : PushNotification) :
  ((2000 < PyStr.len (content_of n))%nat →
     to_discord_message n
     = (PyStr.take 1997 (content_of n) +:+ "...", [WarnTruncated (id n)])
     ∧ PyStr.len (to_discord_message n).1 = 2000%nat)
  ∧ ((PyStr.len (content_of n) <= 2000)%nat →
     to_discord_message n = (content_of n, [])).
Proof.
  unfold to_discord_message.
  destruct (Nat.ltb_spec 2000 (PyStr.len (content_of n))) as [Hgt|Hle].
  - split; [|lia]. intros _. split; [done|].
    cbn [fst]. rewrite len_append, len_take.
    change (PyStr.len "...") with 3%nat. lia.
  - split; [lia | done].
Qed.

Lemma C5_truncation_witness :
  ((2000 < PyStr.len (content_of long_push))%nat
   ∧ PyStr.len (to_discord_message long_push).1 = 2000%nat)
  ∧ ((PyStr.len (content_of alice_hi) <= 2000)%nat
     ∧ to_discord_message alice_hi = (content_of alice_hi, [])).
Proof.
  split; split.
  - vm_compute. lia.
  - apply (proj1 (C5_truncation long_push)). vm_compute. lia.
  - vm_compute. lia.
  - apply (proj2 (C5_truncation alice_hi)). vm_compute. lia.
Defined.

(** ** The channel-map parser *)

Lemma contains_lstrip (c : ascii) (s : string) :
  PyStr.isspace c = false → PyStr.contains c s = true →
  PyStr.contains c (PyStr.lstrip s) = true.
Proof.
  intros Hc. induction s as [|d s IH]; simpl; [done|].
  destruct (PyStr.isspace d) eqn:Hd; [|done].
  destruct (Ascii.eqb_spec d c) as [->|_]; [congruence | done].
Qed.

Lemma contains_rstrip (c : ascii) (s : string) :
  PyStr.isspace c = false → PyStr.contains c s = true →
  PyStr.contains c (PyStr.rstrip s) = true.
Proof.
  intros Hc. induction s as [|d s IH]; simpl; [done|].
  destruct (Ascii.eqb_spec d c) as [->|Hne].
  - intros _. destruct (PyStr.rstrip s); simpl.
    + rewrite Hc. simpl. by rewrite Ascii.eqb_refl.
    + by rewrite Ascii.eqb_refl.
  - intros Hs. specialize (IH Hs).
    destruct (PyStr.rstrip s); [done|].
    simpl. destruct (Ascii.eqb_spec d c); [done|]. exact IH.
Qed.

Lemma strip_keeps_equals (entry : string) :
  PyStr.contains "=" entry = true →
  PyStr.truthy (Some (PyStr.strip entry)) = true.
Proof.
  intros H. unfold PyStr.strip.
  assert (Hc : PyStr.contains "=" (PyStr.rstrip (PyStr.lstrip entry)) = true)
    by (apply contains_rstrip, contains_lstrip; done).
  by destruct (PyStr.rstrip (PyStr.lstrip entry)).
Qed.

Lemma truthy_nonempty (s : string) : s ≠ EmptyString → PyStr.truthy (Some s) = true.
Proof. by destruct s. Qed.

Lemma int_nonempty (s : string) (v : Z) : PyStr.int s = Some v → s ≠ EmptyString.
Proof. intros H ->. discriminate H. Qed.

(** A well-formed entry binds its recipient and logs nothing. *)
Lemma parse_entry_well_formed mapping logs entry k v :
  well_formed entry k v →
  parse_entry (mapping, logs) entry = (<[k := v]> mapping, logs).
Proof.
  intros (Heq & Hk & Hne & Hint). unfold parse_entry.
  rewrite strip_keeps_equals by done. rewrite Heq. cbn [negb].
  destruct (PyStr.split1 "=" entry) as [a b]. cbn [fst snd] in Hk, Hint.
  rewrite Hk.
  rewrite (truthy_nonempty k Hne), (truthy_nonempty _ (int_nonempty _ _ Hint)).
  cbn [negb orb]. by rewrite Hint.
Qed.

(** Any entry either leaves the mapping alone or is well formed and binds
    its recipient. *)
Lemma parse_entry_cases mapping logs entry :
  (parse_entry (mapping, logs) entry).1 = mapping
  ∨ ∃ k v, well_formed entry k v
           ∧ parse_entry (mapping, logs) entry = (<[k := v]> mapping, logs).
Proof.
  unfold parse_entry, well_formed.
  destruct (PyStr.truthy (Some (PyStr.strip entry))); cbn [negb]; [|by left].
  destruct (PyStr.contains "=" entry) eqn:Heq; cbn [negb]; [|by left].
  destruct (PyStr.split1 "=" entry) as [a b]. cbn [fst snd].
  destruct (PyStr.truthy (Some (PyStr.strip a))) eqn:Ha; cbn [negb orb]; [|by left].
  destruct (PyStr.truthy (Some (PyStr.strip b))); cbn [negb]; [|by left].
  destruct (PyStr.int (PyStr.strip b)) as [v|] eqn:Hint; [|by left].
  right. exists (PyStr.strip a), v. repeat split; try done.
  intros Hempty. by rewrite Hempty in Ha.
Qed.

(** The warnings an entry causes do not depend on the entries before it. *)
Lemma parse_entry_logs mapping logs entry :
  (parse_entry (mapping, logs) entry).2
  = logs ++ (parse_entry (∅, []) entry).2.
Proof.
  unfold parse_entry.
  repeat (match goal with
          | |- context [if ?b then _ else _] => destruct b
          | |- context [let '(_, _) := ?p in _] => destruct p
          | |- context [match ?o with Some _ => _ | None => _ end] => destruct o
          end; cbn [fst snd app]); by rewrite ?app_nil_r.
Qed.

Lemma parse_entries_logs entries mapping logs :
  (fold_left parse_entry entries (mapping, logs)).2
  = logs ++ flat_map (λ e, (parse_entry (∅, []) e).2) entries.
Proof.
  revert mapping logs.
  induction entries as [|e es IH]; intros mapping logs;
    cbn [fold_left flat_map snd].
  - by rewrite app_nil_r.
  - destruct (parse_entry (mapping, logs) e) as [m' l'] eqn:He.
    rewrite IH. pose proof (parse_entry_logs mapping logs e) as Hl.
    rewrite He in Hl. cbn [snd] in Hl. rewrite Hl. by rewrite <- app_assoc.
Qed.

(** Entries that do not bind [k] leave its binding alone. *)
Lemma parse_entries_other entries k mapping logs :
  Forall (λ e, ∀ v, ¬ well_formed e k v) entries →
  (fold_left parse_entry entries (mapping, logs)).1 !! k = mapping !! k.
Proof.
  revert mapping logs.
  induction entries as [|e es IH]; intros mapping logs Hall;
    cbn [fold_left fst]; [done|].
  apply Forall_cons in Hall as [He Hes].
  destruct (parse_entry_cases mapping logs e) as [Hsame|(k' & v' & Hwf & Heq)].
  - destruct (parse_entry (mapping, logs) e) as [m' l']. cbn [fst] in Hsame.
    subst m'. by apply IH.
  - rewrite Heq, IH by done.
    apply lookup_insert_ne. intros ->. by apply (He v').
Qed.

Lemma split_empty (sep : ascii) : PyStr.split sep EmptyString = [EmptyString].
Proof. reflexivity. Qed.

(** C8: the channel-map string "a=1,b=,=2,c=xyz,d=7" parses to exactly
    the mapping of "a" to 1 and "d" to 7, with exactly three warnings: the
    missing id of "b=", the missing recipient of "=2" and the non-numeric
    id of "c=xyz".  An entry that is not well formed is skipped: it leaves
    the mapping as it was, and the parser goes on (it is a total
    function). *)
Theorem C8_parse_malformed_entries :
  parse_channel_map (Some "a=1,b=,=2,c=xyz,d=7")
  = ({["a" := 1; "d" := 7]},
     [WarnMalformedEntry "b="; WarnMalformedEntry "=2";
      WarnInvalidChannelId "xyz" "c"])
  ∧ ∀ mapping logs entry,
      (∀ k v, ¬ well_formed entry k v) →
      (parse_entry (mapping, logs) entry).1 = mapping.
Proof.
  split; [by vm_compute|].
  intros mapping logs entry Hbad.
  destruct (parse_entry_cases mapping logs entry) as [H|(k & v & Hwf & _)];
    [done | by destruct (Hbad k v)].
Qed.

Lemma C8_parse_malformed_entries_witness :
  (∀ k v, ¬ well_formed "c=xyz" k v)
  ∧ (parse_entry ({["a" := 1]}, []) "c=xyz").1 = {["a" := 1]}.
Proof.
  assert (Hbad : ∀ k v, ¬ well_formed "c=xyz" k v).
  { intros k v (_ & _ & _ & Hint). vm_compute in Hint. discriminate Hint. }
  split; [exact Hbad|].
  exact (proj2 C8_parse_malformed_entries {["a" := 1]} [] "c=xyz" Hbad).
Defined.

(** C9 as written fails: in "a=1,a=2" the second entry for "a" is not
    skipped and nothing is logged; the first binding is lost. *)
Lemma C9_counterexample_duplicate_key :
  parse_channel_map (Some "a=1,a=2") = ({["a" := 2]}, [])
  ∧ (parse_channel_map (Some "a=1,a=2")).1 !! "a" ≠ Some 1.
Proof. split; by vm_compute. Qed.

(** C9, as the code has it: when the entries of a channel-map string
    contain two well-formed entries for the same recipient, the later one
    overwrites the earlier one, so the last well-formed binding for a
    recipient is the one kept, and neither entry logs a warning: the
    warnings are those of the other entries. *)
Theorem C9_duplicate_key_last_wins
    (raw : string) (es1 es2 es3 : list string) (e1 e2 k : string) (v1 v2 : Z) :
  PyStr.split "," raw = es1 ++ e1 :: es2 ++ e2 :: es3 →
  well_formed e1 k v1 →
  well_formed e2 k v2 →
  Forall (λ e, ∀ v, ¬ well_formed e k v) es3 →
  (parse_channel_map (Some raw)).1 !! k = Some v2
  ∧ (parse_channel_map (Some raw)).2
    = (fold_left parse_entry (es1 ++ es2 ++ es3) (∅, [])).2.
Proof.
  intros Hsplit Hwf1 Hwf2 Hrest.
  assert (Hparse : parse_channel_map (Some raw)
                   = fold_left parse_entry (es1 ++ e1 :: es2 ++ e2 :: es3) (∅, [])).
  { destruct raw as [|c s]; [|by rewrite <- Hsplit].
    rewrite split_empty in Hsplit. apply (f_equal length) in Hsplit.
    rewrite length_app in Hsplit. cbn [length] in Hsplit.
    rewrite length_app in Hsplit. cbn [length] in Hsplit. lia. }
  rewrite Hparse. split.
  - rewrite fold_left_app. cbn [fold_left].
    rewrite fold_left_app. cbn [fold_left].
    destruct (fold_left parse_entry es2
                (parse_entry (fold_left parse_entry es1 (∅, [])) e1)) as [m l].
    rewrite (parse_entry_well_formed m l e2 k v2 Hwf2).
    rewrite parse_entries_other by done. apply lookup_insert_eq.
  - rewrite !parse_entries_logs.
    rewrite !flat_map_app. cbn [flat_map].
    rewrite !flat_map_app. cbn [flat_map].
    rewrite (parse_entry_well_formed ∅ [] e1 k v1 Hwf1).
    rewrite (parse_entry_well_formed ∅ [] e2 k v2 Hwf2).
    done.
Qed.

Lemma C9_duplicate_key_last_wins_witness :
  (parse_channel_map (Some "a=1,b=5,a=2,c=")).1 !! "a" = Some 2
  ∧ (parse_channel_map (Some "a=1,b=5,a=2,c=")).2
    = (fold_left parse_entry ([] ++ ["b=5"] ++ ["c="]) (∅, [])).2.
Proof.
  apply (C9_duplicate_key_last_wins "a=1,b=5,a=2,c="
           [] ["b=5"] ["c="] "a=1" "a=2" "a" 1 2).
  - reflexivity.
  - repeat split; done.
  - repeat split; done.
  - constructor; [|constructor].
    intros v (_ & _ & _ & Hint). vm_compute in Hint. discriminate Hint.
Defined.

(** ** The channel resolver *)

Lemma add_logs_nil (st : State) : add_logs [] st = st.
Proof. destruct st. unfold add_logs. cbn. by rewrite app_nil_r. Qed.

(** What [_resolve_channel_id] does, by cases on the recipient. *)
Lemma resolve_mapped m d recipient v st :
  mapped_to m recipient v →
  _resolve_channel_id m d recipient st = (Ok (Some v), st).
Proof.
  intros (r & -> & Hne & Hv). unfold _resolve_channel_id, in_channel_map.
  rewrite (truthy_nonempty r Hne). cbn [andb].
  rewrite bool_decide_eq_true_2 by (by rewrite Hv).
  cbn. by rewrite Hv.
Qed.

Lemma resolve_unknown m d recipient st :
  unknown_recipient m recipient →
  _resolve_channel_id m d recipient st
  = (Ok (Some d), add_logs [WarnRecipientNotInMap recipient d] st).
Proof.
  intros (r & -> & Hne & Hself & Hv). unfold _resolve_channel_id, in_channel_map.
  rewrite (truthy_nonempty r Hne). cbn [andb].
  rewrite bool_decide_eq_false_2 by (rewrite Hv; by intros [? ?]).
  rewrite bool_decide_eq_false_2 by congruence.
  reflexivity.
Qed.

Lemma resolve_default_quietly m d recipient st :
  (∀ v, ¬ mapped_to m recipient v) →
  ¬ unknown_recipient m recipient →
  _resolve_channel_id m d recipient st = (Ok (Some d), st).
Proof.
  intros Hnm Hnu. unfold _resolve_channel_id, in_channel_map.
  destruct recipient as [[|c s]|]; cbn [PyStr.truthy andb]; try done.
  destruct (m !! String c s) as [v|] eqn:Hv.
  - destruct (Hnm v). exists (String c s). by repeat split.
  - rewrite bool_decide_eq_false_2 by (by intros [? ?]).
    destruct (decide (String c s = "self")) as [Hs|Hs].
    + rewrite Hs. reflexivity.
    + destruct Hnu. exists (String c s). by repeat split.
Qed.

Lemma mapped_or_not m recipient :
  (∃ v, mapped_to m recipient v) ∨ (∀ v, ¬ mapped_to m recipient v).
Proof.
  destruct recipient as [r|]; [|right; by intros v (r & ? & _)].
  destruct (decide (r = EmptyString)) as [->|Hne];
    [right; intros v (r & [= <-] & ? & _); done|].
  destruct (m !! r) as [v|] eqn:Hv.
  - left. exists v, r. by repeat split.
  - right. intros v (r' & [= <-] & _ & Hv'). congruence.
Qed.

Lemma unknown_or_not m recipient :
  unknown_recipient m recipient ∨ ¬ unknown_recipient m recipient.
Proof.
  destruct recipient as [r|]; [|right; by intros (r & ? & _)].
  destruct (decide (r = EmptyString)) as [->|Hne];
    [right; intros (r & [= <-] & ? & _); done|].
  destruct (decide (r = "self")) as [->|Hs];
    [right; intros (r & [= <-] & _ & ? & _); done|].
  destruct (m !! r) as [v|] eqn:Hv.
  - right. intros (r' & [= <-] & _ & _ & Hv'). congruence.
  - left. exists r. by repeat split.
Qed.


(** The resolver always answers with an integer and only ever logs the
    fall-back warning. *)
Lemma resolve_total m d recipient st :
  ∃ z logs,
    _resolve_channel_id m d recipient st = (Ok (Some z), add_logs logs st)
    ∧ (logs = [] ∨ logs = [WarnRecipientNotInMap recipient d]).
Proof.
  destruct (mapped_or_not m recipient) as [[v Hv]|Hnm].
  - exists v, []. rewrite add_logs_nil. split; [by apply resolve_mapped | by left].
  - destruct (unknown_or_not m recipient) as [Hu|Hnu].
    + exists d, [WarnRecipientNotInMap recipient d].
      split; [by apply resolve_unknown | by right].
    + exists d, []. rewrite add_logs_nil.
      split; [by apply resolve_default_quietly | by left].
Qed.


(** ** The engine: what each operation changes *)

Lemma grows_refl st : grows st st [] [].
Proof. unfold grows. by rewrite !app_nil_r. Qed.

Lemma bind_ok {A B} (c : M A) (k : A → M B) st a st' :
  c st = (Ok a, st') → bind c k st = k a st'.
Proof. intros H. unfold bind. by rewrite H. Qed.

Lemma bind_raise {A B} (c : M A) (k : A → M B) st e st' :
  c st = (Raise e, st') → bind c k st = (Raise e, st').
Proof. intros H. unfold bind. by rewrite H. Qed.

Section ClientFacts.

Variable W : World.
Variable m : gmap string Z.
Variable d : Z.

(** A channel already cached is returned without any outside call. *)
Lemma fetch_channel_hit cid ch st :
  channel_cache st !! cid = Some ch →
  _fetch_channel W cid st = (Ok (Some ch), st).
Proof. intros H. unfold _fetch_channel. run. by rewrite H. Qed.

Lemma fetch_channel_footprint cid st :
  ∃ evs logs,
    grows st (_fetch_channel W cid st).2 evs logs
    ∧ Forall (resolution_event cid) evs
    ∧ Forall (resolution_log cid) logs
    ∧ (∀ ch, (_fetch_channel W cid st).1 = Ok (Some ch) →
             channel_cache (_fetch_channel W cid st).2 !! cid = Some ch).
Proof.
  unfold _fetch_channel. run.
  destruct (channel_cache st !! cid) as [ch|] eqn:Hc; cbn.
  { exists [], []. split; [apply grows_refl|]. repeat split; try done.
    by intros ch' [= <-]. }
  destruct (get_channel_result W (length (trace st)) cid) as [ch|]; cbn.
  - destruct (messageable ch); cbn.
    + exists [CallGetChannel cid], []. footprint.
    + exists [CallGetChannel cid], [ErrNotMessageable cid]. footprint.
  - rewrite length_app. cbn [length].
    destruct (fetch_channel_result W (length (trace st) + 1) cid) as [ch|e]; cbn.
    + destruct (messageable ch); cbn.
      * exists [CallGetChannel cid; CallFetchChannel cid], []. footprint.
      * exists [CallGetChannel cid; CallFetchChannel cid], [ErrNotMessageable cid].
        footprint.
    + destruct (is_Exception e); cbn.
      * exists [CallGetChannel cid; CallFetchChannel cid],
          [ExcFetchChannelFailed cid e].
        footprint.
      * exists [CallGetChannel cid; CallFetchChannel cid], []. footprint.
Qed.

Lemma deliver_one_summary n st :
  ∃ z pre evs logs,
    trace (deliver_one W m d n st).2 = trace st ++ pre ++ evs
    ∧ Forall (resolution_event z) pre
    ∧ logged (deliver_one W m d n st).2 = logged st ++ logs
    ∧ Forall (delivery_log d n) logs
    ∧ channel_cache st ⊆ channel_cache (deliver_one W m d n st).2
    ∧ one_record W n st (length (trace st ++ pre))
        (deliver_one W m d n st).1 (deliver_one W m d n st).2 evs.
Proof.
  unfold deliver_one.
  destruct (resolve_total m d (recipient n) st) as (z & logs0 & Hres & Hlogs0).
  rewrite (bind_ok _ _ _ _ _ Hres).
  assert (Hl0 : Forall (delivery_log d n) logs0).
  { destruct Hlogs0 as [->| ->]; [constructor|].
    constructor; [by left | constructor]. }
  destruct (fetch_channel_footprint z (add_logs logs0 st))
    as (pre & logs1 & (Hs & Ht & Hl & Hc) & Hpre & Hlogs1 & _).
  assert (Hl1 : Forall (delivery_log d n) logs1).
  { eapply Forall_impl; [exact Hlogs1|]. intros r Hr. right. left. by exists z. }
  destruct (_fetch_channel W z (add_logs logs0 st)) as [[[ch|]|e] st2] eqn:Hf;
    cbn [fst snd] in *;
    cbn [add_logs store trace logged channel_cache] in Hs, Ht, Hl, Hc;
    [rewrite (bind_ok _ _ _ _ _ Hf)..|rewrite (bind_raise _ _ _ _ _ Hf)].
  - (* a channel *)
    destruct (to_discord_message n) as [text warnings] eqn:Hmsg.
    assert (Htext : text = text_of n) by (unfold text_of; by rewrite Hmsg).
    assert (Hw : Forall (delivery_log d n) warnings).
    { unfold to_discord_message in Hmsg.
      destruct (2000 <? PyStr.len (content_of n))%nat; injection Hmsg as <- <-;
        [|constructor].
      constructor; [|constructor]. right. right. right. by left. }
    subst text. unfold _delete_push_row. run.
    rewrite ?length_app; cbn [length]. rewrite ?Nat.add_1_r, Ht.
    destruct (send_result W (length (trace st ++ pre)) ch (text_of n)) as [e|] eqn:Hsend; cbn.
    + destruct (is_Exception e) eqn:He; cbn.
      * exists z, pre, [CallSend ch (text_of n)],
          (logs0 ++ logs1 ++ warnings ++ [ExcSendFailed (id n) e]).
        repeat split; try done.
        -- cbn; rewrite ?Ht; cbn; by rewrite <- ?app_assoc.
        -- cbn; rewrite ?Hl; cbn; by rewrite <- ?app_assoc.
        -- rewrite !Forall_app. repeat split; try done.
           constructor; [|constructor]. do 4 right. by exists e.
        -- apply SendFailed with (e := e); cbn; try done.
           by rewrite last_snoc.
      * exists z, pre, [CallSend ch (text_of n)], (logs0 ++ logs1 ++ warnings).
        repeat split; try done.
        -- cbn; rewrite ?Ht; cbn; by rewrite <- ?app_assoc.
        -- cbn; rewrite ?Hl; cbn; by rewrite <- ?app_assoc.
        -- rewrite !Forall_app. by repeat split.
        -- apply SendInterrupted with (e := e); cbn; done.
    + rewrite ?length_app; cbn [length]. rewrite ?Nat.add_1_r, ?Ht.
      destruct (delete_result W (S (length (trace st ++ pre))) (id n))
        as [e|] eqn:Hdel; cbn.
      * exists z, pre, [CallSend ch (text_of n); CallDelete (id n)],
          (logs0 ++ logs1 ++ warnings).
        repeat split; try done.
        -- cbn; rewrite ?Ht; cbn; by rewrite <- ?app_assoc.
        -- cbn; rewrite ?Hl; cbn; by rewrite <- ?app_assoc.
        -- rewrite !Forall_app. by repeat split.
        -- apply DeleteFailed with (e := e); cbn; done.
      * exists z, pre, [CallSend ch (text_of n); CallDelete (id n)],
          (logs0 ++ logs1 ++ warnings).
        repeat split; try done.
        -- cbn; rewrite ?Ht; cbn; by rewrite <- ?app_assoc.
        -- cbn; rewrite ?Hl; cbn; by rewrite <- ?app_assoc.
        -- rewrite !Forall_app. by repeat split.
        -- apply Delivered; cbn; try done. by rewrite Hs.
  - (* no channel: skipped *)
    run.
    exists z, pre, [], (logs0 ++ logs1 ++ [ErrChannelNotFetched (id n) z]).
    repeat split; try done.
    + cbn. by rewrite ?Ht, app_nil_r.
    + cbn; rewrite ?Hl; cbn; by rewrite <- ?app_assoc.
    + rewrite !Forall_app. repeat split; try done.
      constructor; [|constructor]. right. right. left. by exists z.
    + by apply NotSent.
  - (* the channel fetch was interrupted *)
    exists z, pre, [], (logs0 ++ logs1).
    repeat split; try done.
    + cbn. by rewrite ?Ht, app_nil_r.
    + cbn; rewrite ?Hl; cbn; by rewrite <- ?app_assoc.
    + rewrite !Forall_app. by repeat split.
    + by apply NotSent.
Qed.

(** *** One record: deletes and rows *)

Lemma deliver_one_trace n st :
  ∃ evs, trace (deliver_one W m d n st).2 = trace st ++ evs.
Proof.
  destruct (deliver_one_summary n st) as (z & pre & evs & logs & Ht & _).
  by exists (pre ++ evs).
Qed.

(** Within the events of one record, a delete comes right after the
    successful send of the record's text. *)
Lemma deliver_one_delete n st j i :
  trace (deliver_one W m d n st).2 !! j = Some (CallDelete i) →
  (length (trace st) ≤ j)%nat →
  ∃ k ch,
    j = S k ∧ id n = i
    ∧ trace (deliver_one W m d n st).2 !! k = Some (CallSend ch (text_of n))
    ∧ send_result W k ch (text_of n) = None.
Proof.
  destruct (deliver_one_summary n st)
    as (z & pre & evs & logs & Ht & Hpre & _ & _ & _ & Hone).
  rewrite Ht, app_assoc. intros Hj Hle.
  apply lookup_app_Some in Hj as [Hj|[Hge Hj]].
  { apply lookup_app_Some in Hj as [Hj|[_ Hj]].
    - apply lookup_lt_Some in Hj. lia.
    - apply (Forall_lookup_1 _ _ _ _ Hpre) in Hj. by destruct Hj. }
  assert (Hsend : ∀ ch a, evs = CallSend ch (text_of n) :: a →
            ((trace st ++ pre) ++ evs) !! length (trace st ++ pre)
            = Some (CallSend ch (text_of n))).
  { intros ch a ->. rewrite lookup_app_r by lia.
    by rewrite Nat.sub_diag. }
  inversion Hone as [ | | |ch e st' Hs Hd _|ch st' Hs Hd _]; subst evs;
    try (by destruct (j - length (trace st ++ pre))%nat as [|[|?]]).
  - destruct (j - length (trace st ++ pre))%nat as [|[|?]] eqn:Hidx;
      try done.
    injection Hj as <-. exists (length (trace st ++ pre)), ch.
    repeat split; [lia | by eapply Hsend | done].
  - destruct (j - length (trace st ++ pre))%nat as [|[|?]] eqn:Hidx;
      try done.
    injection Hj as <-. exists (length (trace st ++ pre)), ch.
    repeat split; [lia | by eapply Hsend | done].
Qed.

(** One record leaves the rows alone or deletes its own row, and then
    the delete is in the trace. *)
Lemma deliver_one_store n st :
  store (deliver_one W m d n st).2 = store st
  ∨ (store (deliver_one W m d n st).2
     = filter (λ row, Models.id row ≠ id n) (store st)
     ∧ ∃ j, (length (trace st) ≤ j)%nat
            ∧ trace (deliver_one W m d n st).2 !! j = Some (CallDelete (id n))).
Proof.
  destruct (deliver_one_summary n st)
    as (z & pre & evs & logs & Ht & _ & _ & _ & _ & Hone).
  inversion Hone; subst; try (by left).
  right. split; [done|].
  exists (S (length (trace st ++ pre))). rewrite Ht, app_assoc.
  split; [rewrite length_app; lia|].
  rewrite lookup_app_r by lia.
  by replace (S (length (trace st ++ pre)) - length (trace st ++ pre))%nat
    with 1%nat by lia.
Qed.

(** *** The batch *)

Lemma deliver_cons n rest st :
  _deliver_notifications W m d (n :: rest) st
  = match deliver_one W m d n st with
    | (Ok _, st1) => _deliver_notifications W m d rest st1
    | (Raise e, st1) => (Raise e, st1)
    end.
Proof. reflexivity. Qed.

Lemma deliver_trace ns st :
  ∃ evs, trace (_deliver_notifications W m d ns st).2 = trace st ++ evs.
Proof.
  revert st. induction ns as [|n rest IH]; intros st.
  - exists []. by rewrite app_nil_r.
  - rewrite deliver_cons.
    destruct (deliver_one_trace n st) as [evs1 H1].
    destruct (deliver_one W m d n st) as [[[]|e] st1]; cbn [snd] in *.
    + destruct (IH st1) as [evs2 H2]. exists (evs1 ++ evs2).
      by rewrite H2, H1, app_assoc.
    + by exists evs1.
Qed.

Lemma deliver_deletes ns st j i :
  trace (_deliver_notifications W m d ns st).2 !! j = Some (CallDelete i) →
  (length (trace st) ≤ j)%nat →
  ∃ k ch n,
    j = S k ∧ n ∈ ns ∧ id n = i
    ∧ trace (_deliver_notifications W m d ns st).2 !! k
      = Some (CallSend ch (text_of n))
    ∧ send_result W k ch (text_of n) = None.
Proof.
  revert st. induction ns as [|n rest IH]; intros st.
  - cbn. intros Hj Hle. apply lookup_lt_Some in Hj. lia.
  - rewrite deliver_cons.
    pose proof (deliver_one_delete n st j i) as Hone.
    destruct (deliver_one_trace n st) as [evs1 H1].
    destruct (deliver_one W m d n st) as [[[]|e] st1]; cbn [snd] in *.
    + destruct (deliver_trace rest st1) as [evs2 H2].
      intros Hj Hle.
      destruct (decide (j < length (trace st1))%nat) as [Hlt|Hge].
      * rewrite H2 in Hj |- *. rewrite lookup_app_l in Hj by done.
        destruct (Hone Hj Hle) as (k & ch & -> & Hid & Hk & Hs).
        exists k, ch, n. repeat split; try done; [left|].
        rewrite lookup_app_l by lia. done.
      * destruct (IH st1 Hj ltac:(lia)) as (k & ch & n' & -> & Hin & Hid & Hk & Hs).
        exists k, ch, n'. repeat split; try done. by right.
    + intros Hj Hle.
      destruct (Hone Hj Hle) as (k & ch & -> & Hid & Hk & Hs).
      exists k, ch, n. repeat split; try done. left.
Qed.

Lemma deliver_store ns st row :
  row ∈ store (_deliver_notifications W m d ns st).2 → row ∈ store st.
Proof.
  revert st. induction ns as [|n rest IH]; intros st; [done|].
  rewrite deliver_cons.
  pose proof (deliver_one_store n st) as Hone.
  destruct (deliver_one W m d n st) as [[[]|e] st1]; cbn [snd] in *.
  - intros Hin. apply IH in Hin.
    destruct Hone as [Heq|[Heq _]]; rewrite Heq in Hin; [done|].
    by apply list_elem_of_filter in Hin as [_ ?].
  - intros Hin.
    destruct Hone as [Heq|[Heq _]]; rewrite Heq in Hin; [done|].
    by apply list_elem_of_filter in Hin as [_ ?].
Qed.

Lemma deliver_removed ns st row :
  row ∈ store st →
  row ∉ store (_deliver_notifications W m d ns st).2 →
  ∃ j, (length (trace st) ≤ j)%nat
       ∧ trace (_deliver_notifications W m d ns st).2 !! j
         = Some (CallDelete (Models.id row)).
Proof.
  revert st. induction ns as [|n rest IH]; intros st; [done|].
  rewrite deliver_cons.
  pose proof (deliver_one_store n st) as Hone.
  destruct (deliver_one_trace n st) as [evs1 H1].
  destruct (deliver_one W m d n st) as [[[]|e] st1]; cbn [snd] in *.
  - intros Hin Hout.
    destruct (deliver_trace rest st1) as [evs2 H2].
    assert (Hlater : row ∈ store st1 →
              ∃ j, (length (trace st) ≤ j)%nat
                   ∧ trace (_deliver_notifications W m d rest st1).2 !! j
                     = Some (CallDelete (Models.id row))).
    { intros Hin1. destruct (IH st1 Hin1 Hout) as (j & Hle & Hj).
      exists j. split; [|done]. rewrite H1, length_app in Hle. lia. }
    destruct Hone as [Heq|[Heq (j & Hle & Hj)]];
      [apply Hlater; by rewrite Heq|].
    destruct (decide (Models.id row = id n)) as [Hid|Hne].
    + rewrite Hid. exists j. split; [done|]. rewrite H2.
      rewrite lookup_app_l; [done|]. by apply lookup_lt_Some in Hj.
    + apply Hlater. rewrite Heq. by apply list_elem_of_filter.
  - intros Hin Hout.
    destruct Hone as [Heq|[Heq (j & Hle & Hj)]]; [by rewrite Heq in Hout|].
    rewrite Heq in Hout.
    assert (Models.id row = id n) as ->.
    { destruct (decide (Models.id row = id n)) as [|Hne]; [done|].
      destruct Hout. by apply list_elem_of_filter. }
    by exists j.
Qed.

(** When the send raises, the record's processing ends right after the
    send: no delete is issued and the rows are as before. *)
Lemma deliver_one_send_raises n st z st1 ch st2 e :
  _resolve_channel_id m d (recipient n) st = (Ok (Some z), st1) →
  _fetch_channel W z st1 = (Ok (Some ch), st2) →
  send_result W (length (trace st2)) ch (text_of n) = Some e →
  deliver_one W m d n st
  = if is_Exception e then (Ok (), after_failed_send n ch e st2)
    else (Raise e, add_events [CallSend ch (text_of n)]
                     (add_logs (to_discord_message n).2 st2)).
Proof.
  intros Hres Hf Hsend. unfold deliver_one.
  rewrite (bind_ok _ _ _ _ _ Hres), (bind_ok _ _ _ _ _ Hf).
  unfold after_failed_send, text_of in *.
  destruct (to_discord_message n) as [text warnings]. cbn [fst snd] in *.
  run. rewrite Hsend. cbn. by destruct (is_Exception e).
Qed.

Lemma resolve_keeps_store recipient st z st1 :
  _resolve_channel_id m d recipient st = (Ok (Some z), st1) →
  store st1 = store st ∧ trace st1 = trace st.
Proof.
  destruct (resolve_total m d recipient st) as (z' & logs & -> & _).
  by intros [= _ <-].
Qed.

Lemma fetch_channel_keeps_store z st1 r st2 :
  _fetch_channel W z st1 = (r, st2) → store st2 = store st1.
Proof.
  intros Hf. destruct (fetch_channel_footprint z st1)
    as (evs & logs & (Hs & _) & _).
  by rewrite Hf in Hs.
Qed.

(** C1: in the delivery of a batch, every delete of a row comes right
    after a successful send of the formatted text of a record of the
    batch with that id, and a row leaves the store only through such a
    delete.  If the send of a record raises, no delete is issued for it
    and the rows are as they were; if what was raised is an error (an
    instance of Exception), it is logged and the delivery goes on with
    the next record of the batch. *)
Theorem C1_delete_only_after_successful_send :
  (∀ (ns : list PushNotification) (st : State),
      (∀ (j : nat) (i : Z),
          trace (_deliver_notifications W m d ns st).2 !! j = Some (CallDelete i) →
          (length (trace st) ≤ j)%nat →
          ∃ k ch n,
            j = S k ∧ n ∈ ns ∧ id n = i
            ∧ trace (_deliver_notifications W m d ns st).2 !! k
              = Some (CallSend ch (text_of n))
            ∧ send_result W k ch (text_of n) = None)
      ∧ (∀ row,
            row ∈ store st →
            row ∉ store (_deliver_notifications W m d ns st).2 →
            ∃ j, (length (trace st) ≤ j)%nat
                 ∧ trace (_deliver_notifications W m d ns st).2 !! j
                   = Some (CallDelete (Models.id row))))
  ∧ (∀ (n : PushNotification) (rest : list PushNotification)
       (st st1 st2 : State) (z : Z) (ch : Channel) (e : raised),
        _resolve_channel_id m d (recipient n) st = (Ok (Some z), st1) →
        _fetch_channel W z st1 = (Ok (Some ch), st2) →
        send_result W (length (trace st2)) ch (text_of n) = Some e →
        store (deliver_one W m d n st).2 = store st
        ∧ trace (deliver_one W m d n st).2
          = trace st2 ++ [CallSend ch (text_of n)]
        ∧ (is_Exception e = true →
           store (after_failed_send n ch e st2) = store st
           ∧ last (logged (after_failed_send n ch e st2))
             = Some (ExcSendFailed (id n) e)
           ∧ _deliver_notifications W m d (n :: rest) st
             = _deliver_notifications W m d rest (after_failed_send n ch e st2))).
Proof.
  split.
  - intros ns st. split.
    + intros j i. apply deliver_deletes.
    + intros row. apply deliver_removed.
  - intros n rest st st1 st2 z ch e Hres Hf Hsend.
    pose proof (deliver_one_send_raises n st z st1 ch st2 e Hres Hf Hsend) as Hone.
    destruct (resolve_keeps_store _ _ _ _ Hres) as [Hs1 _].
    pose proof (fetch_channel_keeps_store _ _ _ _ Hf) as Hs2.
    assert (Hstore : store st2 = store st) by congruence.
    rewrite Hone. split; [by destruct (is_Exception e)|].
    split; [by destruct (is_Exception e)|].
    intros He. split; [done|]. split.
    + unfold after_failed_send. cbn. by rewrite last_snoc.
    + by rewrite deliver_cons, Hone, He.
Qed.

(** *** Order of processing *)

Lemma deleted_ids_app evs1 evs2 :
  deleted_ids (evs1 ++ evs2) = deleted_ids evs1 ++ deleted_ids evs2.
Proof. apply omap_app. Qed.

Lemma sent_texts_app evs1 evs2 :
  sent_texts (evs1 ++ evs2) = sent_texts evs1 ++ sent_texts evs2.
Proof. apply omap_app. Qed.

Lemma resolution_not_delete z pre :
  Forall (resolution_event z) pre → deleted_ids pre = [] ∧ sent_texts pre = [].
Proof.
  induction 1 as [|ev pre [-> | ->] _ [IHd IHs]]; [done|..];
    unfold deleted_ids, sent_texts in *; cbn; by rewrite ?IHd, ?IHs.
Qed.

Lemma deliver_one_order n st :
  ∃ evs,
    trace (deliver_one W m d n st).2 = trace st ++ evs
    ∧ deleted_ids evs `sublist_of` [id n]
    ∧ sent_texts evs `sublist_of` [text_of n].
Proof.
  destruct (deliver_one_summary n st)
    as (z & pre & evs & logs & Ht & Hpre & _ & _ & _ & Hone).
  exists (pre ++ evs). split; [done|].
  destruct (resolution_not_delete z pre Hpre) as [Hd Hs].
  rewrite deleted_ids_app, sent_texts_app, Hd, Hs. cbn [app].
  inversion Hone; subst; cbn; split;
    first [done | by apply sublist_nil_l].
Qed.

Lemma deliver_order ns st :
  ∃ evs,
    trace (_deliver_notifications W m d ns st).2 = trace st ++ evs
    ∧ deleted_ids evs `sublist_of` (id <$> ns)
    ∧ sent_texts evs `sublist_of` (text_of <$> ns).
Proof.
  revert st. induction ns as [|n rest IH]; intros st.
  - exists []. cbn. by rewrite app_nil_r.
  - rewrite deliver_cons.
    destruct (deliver_one_order n st) as (evs1 & H1 & Hd1 & Hs1).
    destruct (deliver_one W m d n st) as [[[]|e] st1]; cbn [snd] in *.
    + destruct (IH st1) as (evs2 & H2 & Hd2 & Hs2).
      exists (evs1 ++ evs2). rewrite H2, H1, app_assoc. split; [done|].
      rewrite deleted_ids_app, sent_texts_app.
      split.
      * change (id <$> n :: rest) with ([id n] ++ (id <$> rest)).
        by apply sublist_app.
      * change (text_of <$> n :: rest) with ([text_of n] ++ (text_of <$> rest)).
        by apply sublist_app.
    + exists evs1. split; [done|]. split.
      * etrans; [exact Hd1|]. apply sublist_skip, sublist_nil_l.
      * etrans; [exact Hs1|]. apply sublist_skip, sublist_nil_l.
Qed.

(** *** The fetch *)

Lemma fetch_pending_result st :
  _fetch_pending_notifications W st
  = match select_result W (length (trace st)) with
    | None => (Ok (notification_of_row <$> order_by_id (store st)),
               add_events [CallSelect] st)
    | Some e => (Raise e, add_events [CallSelect] st)
    end.
Proof.
  unfold _fetch_pending_notifications. run.
  by destruct (select_result W (length (trace st))).
Qed.

End ClientFacts.


Lemma C1_delete_only_after_successful_send_witness :
  store (after_failed_send (notification_of_row (sample_row 5 "five"))
           {| handle := 7; messageable := true |}
           (ExceptionInstance "HTTPException")
           (add_events [CallGetChannel 7]
              (with_cached 7 {| handle := 7; messageable := true |}
                 (fresh rows_539))))
  = rows_539.
Proof.
  refine (proj1 (proj2 (proj2 (proj2
    (C1_delete_only_after_successful_send send_fails ∅ 7)
      (notification_of_row (sample_row 5 "five")) []
      (fresh rows_539) (fresh rows_539) _ 7
      {| handle := 7; messageable := true |}
      (ExceptionInstance "HTTPException") _ _ _)) _)).
  - reflexivity.
  - reflexivity.
  - reflexivity.
  - reflexivity.
Defined.

Lemma ids_of_rows (rows : list Models.Push) :
  id <$> (notification_of_row <$> rows) = Models.id <$> rows.
Proof. rewrite <- list_fmap_compose. by apply list_fmap_ext. Qed.

Lemma fetch_order_ascending (rows : list Models.Push) :
  Sorted Z.le (id <$> (notification_of_row <$> order_by_id rows)).
Proof.
  rewrite ids_of_rows. apply (Sorted_fmap _ id_le); [done|].
  apply Sorted_merge_sort; apply _.
Qed.

Lemma fetch_order_permutation (rows : list Models.Push) :
  notification_of_row <$> order_by_id rows ≡ₚ notification_of_row <$> rows.
Proof. unfold order_by_id. by rewrite merge_sort_Permutation. Qed.

Lemma StronglySorted_le_lt (l : list Z) :
  StronglySorted Z.le l → NoDup l → StronglySorted Z.lt l.
Proof.
  induction 1 as [|x l Hl IH Hx]; intros Hnd; [constructor|].
  apply NoDup_cons in Hnd as [Hnotin Hnd].
  constructor; [by apply IH|].
  apply Forall_forall. intros y Hy.
  pose proof (proj1 (Forall_forall _ _) Hx y Hy) as Hle.
  assert (x ≠ y) by (intros ->; done). lia.
Qed.

Lemma fetch_order_strict (rows : list Models.Push) :
  NoDup (Models.id <$> rows) →
  Sorted Z.lt (id <$> (notification_of_row <$> order_by_id rows)).
Proof.
  intros Hnd. rewrite ids_of_rows.
  apply StronglySorted_Sorted, StronglySorted_le_lt.
  - apply (StronglySorted_fmap _ id_le); [done|].
    apply StronglySorted_merge_sort; apply _.
  - unfold order_by_id. by rewrite merge_sort_Permutation.
Qed.

(** C2: the fetch asks the database for the rows ordered by id, so the
    batch is the pending rows in ascending id order (strictly ascending, the
    id being the primary key); the delivery goes through the batch in
    that order: the texts sent and the ids deleted follow the order of the
    batch.  With pending ids 5, 3, 9 the delivery order is 3, 5, 9. *)
Theorem C2_ascending_id_order :
  (∀ (W : World) (st : State),
      _fetch_pending_notifications W st
      = match select_result W (length (trace st)) with
        | None => (Ok (notification_of_row <$> order_by_id (store st)),
                   add_events [CallSelect] st)
        | Some e => (Raise e, add_events [CallSelect] st)
        end
      ∧ Sorted Z.le (id <$> (notification_of_row <$> order_by_id (store st)))
      ∧ notification_of_row <$> order_by_id (store st)
        ≡ₚ notification_of_row <$> store st
      ∧ (NoDup (Models.id <$> store st) →
         Sorted Z.lt (id <$> (notification_of_row <$> order_by_id (store st)))))
  ∧ (∀ (W : World) (m : gmap string Z) (d : Z)
       (ns : list PushNotification) (st : State),
        ∃ evs,
          trace (_deliver_notifications W m d ns st).2 = trace st ++ evs
          ∧ deleted_ids evs `sublist_of` (id <$> ns)
          ∧ sent_texts evs `sublist_of` (text_of <$> ns))
  ∧ (deleted_ids (trace (poll_once calm ∅ 7 (fresh rows_539)).2) = [3; 5; 9]
     ∧ sent_texts (trace (poll_once calm ∅ 7 (fresh rows_539)).2)
       = [text_of (notification_of_row (sample_row 3 "three"));
          text_of (notification_of_row (sample_row 5 "five"));
          text_of (notification_of_row (sample_row 9 "nine"))]
     ∧ store (poll_once calm ∅ 7 (fresh rows_539)).2 = []).
Proof.
  split; [|split].
  - intros W st. split; [apply fetch_pending_result|].
    split; [apply fetch_order_ascending|].
    split; [apply fetch_order_permutation | apply fetch_order_strict].
  - intros W m d ns st. apply deliver_order.
  - by vm_compute.
Qed.

Lemma C2_ascending_id_order_witness :
  NoDup (Models.id <$> rows_539)
  ∧ Sorted Z.lt (id <$> (notification_of_row <$> order_by_id rows_539)).
Proof.
  assert (Hnd : NoDup (Models.id <$> rows_539)).
  { apply (bool_decide_unpack _). by vm_compute. }
  split; [exact Hnd|].
  exact (proj2 (proj2 (proj2 (proj1 C2_ascending_id_order calm (fresh rows_539)))) Hnd).
Defined.

(** ** The cache of resolved channels *)

Section Cache.

Variable W : World.
Variable m : gmap string Z.
Variable d : Z.

Lemma fetch_channel_cache_grows cid st :
  channel_cache st ⊆ channel_cache (_fetch_channel W cid st).2.
Proof.
  destruct (fetch_channel_footprint W cid st) as (evs & logs & (_ & _ & _ & Hc) & _).
  exact Hc.
Qed.

Lemma fetch_channel_stores cid ch st :
  (_fetch_channel W cid st).1 = Ok (Some ch) →
  channel_cache (_fetch_channel W cid st).2 !! cid = Some ch.
Proof.
  destruct (fetch_channel_footprint W cid st) as (evs & logs & _ & _ & _ & Hc).
  apply Hc.
Qed.

Lemma deliver_cache_grows ns st :
  channel_cache st ⊆ channel_cache (_deliver_notifications W m d ns st).2.
Proof.
  revert st. induction ns as [|n rest IH]; intros st; [done|].
  rewrite deliver_cons.
  destruct (deliver_one_summary W m d n st)
    as (z & pre & evs & logs & _ & _ & _ & _ & Hc & _).
  destruct (deliver_one W m d n st) as [[[]|e] st1]; cbn [snd] in *; [|done].
  etrans; [exact Hc | apply IH].
Qed.

Lemma poll_once_cache_grows st :
  channel_cache st ⊆ channel_cache (poll_once W m d st).2.
Proof.
  unfold poll_once, poll_body, try_except, to_thread.
  unfold bind at 1. rewrite fetch_pending_result.
  destruct (select_result W (length (trace st))) as [e|].
  - by destruct (is_Exception e).
  - destruct (notification_of_row <$> order_by_id (store st)) as [|n ns];
      [done|].
    pose proof (deliver_cache_grows (n :: ns) (add_events [CallSelect] st)) as Hc.
    destruct (_deliver_notifications W m d (n :: ns) (add_events [CallSelect] st))
      as [[[]|e] st1]; cbn [snd] in *; [done|].
    by destruct (is_Exception e).
Qed.

Lemma sleep_cache st : channel_cache (sleep W st).2 = channel_cache st.
Proof.
  unfold sleep. run. by destruct (sleep_result W (length (trace st))).
Qed.

Lemma while_cache_grows cycles st :
  channel_cache st ⊆ channel_cache (while_not_closed W m d cycles st).2.
Proof.
  revert st. induction cycles as [|cycles IH]; intros st; [done|].
  cbn [while_not_closed]. unfold bind at 1, call.
  destruct (is_closed_result W (length (trace st))); [done|].
  pose proof (poll_once_cache_grows (add_events [CallIsClosed] st)) as Hp.
  unfold bind at 1.
  destruct (poll_once W m d (add_events [CallIsClosed] st)) as [[[]|e] st1];
    cbn [snd] in *; [|done].
  pose proof (sleep_cache st1) as Hs.
  unfold bind at 1.
  destruct (sleep W st1) as [[[]|e] st2]; cbn [snd] in *.
  - etrans; [exact Hp|]. rewrite <- Hs. apply IH.
  - by rewrite Hs.
Qed.

Lemma loop_cache_grows cycles st :
  channel_cache st ⊆ channel_cache (_forward_notifications_loop W m d cycles st).2.
Proof.
  unfold _forward_notifications_loop. run.
  destruct (wait_until_ready_result W (length (trace st))); [done|].
  cbn. apply (while_cache_grows cycles (add_events [CallWaitUntilReady] st)).
Qed.

End Cache.

(** What a call answers on a cache miss. *)
Lemma fetch_channel_result_miss W cid st :
  channel_cache st !! cid = None →
  (_fetch_channel W cid st).1
  = match get_channel_result W (length (trace st)) cid with
    | Some ch => if messageable ch then Ok (Some ch) else Ok None
    | None =>
        match fetch_channel_result W (S (length (trace st))) cid with
        | Ok ch => if messageable ch then Ok (Some ch) else Ok None
        | Raise e => if is_Exception e then Ok None else Raise e
        end
    end.
Proof.
  intros Hc. unfold _fetch_channel. run. rewrite Hc. cbn.
  destruct (get_channel_result W (length (trace st)) cid) as [ch|]; cbn.
  - by destruct (messageable ch).
  - rewrite length_app. cbn [length]. rewrite Nat.add_1_r.
    destruct (fetch_channel_result W (S (length (trace st))) cid) as [ch|e]; cbn.
    + by destruct (messageable ch).
    + by destruct (is_Exception e).
Qed.

(** The cache after a call: the returned handle is stored under the
    channel id, and nothing else changes. *)
Lemma fetch_channel_cache_exact W cid st :
  channel_cache (_fetch_channel W cid st).2
  = match (_fetch_channel W cid st).1 with
    | Ok (Some ch) => <[cid := ch]> (channel_cache st)
    | _ => channel_cache st
    end.
Proof.
  unfold _fetch_channel. run.
  destruct (channel_cache st !! cid) as [ch|] eqn:Hc; cbn.
  { by rewrite insert_id. }
  destruct (get_channel_result W (length (trace st)) cid) as [ch|]; cbn.
  - by destruct (messageable ch).
  - destruct (fetch_channel_result W (length (trace st ++ [CallGetChannel cid])) cid)
      as [ch|e]; cbn.
    + by destruct (messageable ch).
    + by destruct (is_Exception e).
Qed.

(** On a cache miss the client is consulted. *)
Lemma fetch_channel_miss_consults W cid st :
  channel_cache st !! cid = None →
  ∃ evs, trace (_fetch_channel W cid st).2 = trace st ++ CallGetChannel cid :: evs.
Proof.
  intros Hc. unfold _fetch_channel. run. rewrite Hc. cbn.
  destruct (get_channel_result W (length (trace st)) cid) as [ch|]; cbn.
  - exists []. by destruct (messageable ch).
  - exists [CallFetchChannel cid].
    destruct (fetch_channel_result W (length (trace st ++ [CallGetChannel cid])) cid)
      as [ch|e]; cbn.
    + destruct (messageable ch); cbn; by rewrite <- app_assoc.
    + destruct (is_Exception e); cbn; by rewrite <- app_assoc.
Qed.

(** C7 as written fails when the first call stores nothing: with a
    channel that cannot be resolved, two calls for channel id 42 consult
    the client twice. *)
Lemma C7_counterexample_failed_resolution :
  (_fetch_channel no_channel 42 (fresh [])).1 = Ok None
  ∧ trace (_fetch_channel no_channel 42
             (_fetch_channel no_channel 42 (fresh [])).2).2
    = [CallGetChannel 42; CallFetchChannel 42;
       CallGetChannel 42; CallFetchChannel 42].
Proof. split; reflexivity. Qed.

(** C7, as the code has it: once a call has stored a handle in the cache
    of resolved channels, which it does exactly when it returns one,
    every later call with that channel id returns the cached handle
    without consulting the client and without changing anything; no
    operation of the engine removes or replaces a cache entry.  On a
    cache miss a handle is returned only when the client found or fetched
    a channel that can receive text; a call whose resolution fails, or
    yields a channel that cannot receive text, returns no handle and
    stores nothing, so that a later call for the same channel id
    consults the client again. *)
Theorem C7_cached_channel_reused :
  (∀ (W : World) (cid : Z) (ch : Channel) (st : State),
      channel_cache st !! cid = Some ch →
      _fetch_channel W cid st = (Ok (Some ch), st))
  ∧ (∀ (W : World) (cid : Z) (ch : Channel) (st : State),
        (_fetch_channel W cid st).1 = Ok (Some ch) →
        channel_cache (_fetch_channel W cid st).2 !! cid = Some ch
        ∧ _fetch_channel W cid (_fetch_channel W cid st).2
          = (Ok (Some ch), (_fetch_channel W cid st).2))
  ∧ (∀ (W : World) (m : gmap string Z) (d : Z) (st : State),
        (∀ cid, channel_cache st ⊆ channel_cache (_fetch_channel W cid st).2)
        ∧ (∀ ns, channel_cache st
                 ⊆ channel_cache (_deliver_notifications W m d ns st).2)
        ∧ (∀ cycles, channel_cache st
                     ⊆ channel_cache (_forward_notifications_loop W m d cycles st).2))
  ∧ (∀ (W : World) (m : gmap string Z) (d : Z) (cid : Z) (ch : Channel)
       (st : State) (cycles : nat),
        channel_cache st !! cid = Some ch →
        _fetch_channel W cid (_forward_notifications_loop W m d cycles st).2
        = (Ok (Some ch), (_forward_notifications_loop W m d cycles st).2))
  ∧ (∀ (W : World) (cid : Z) (st : State),
        channel_cache (_fetch_channel W cid st).2
        = match (_fetch_channel W cid st).1 with
          | Ok (Some ch) => <[cid := ch]> (channel_cache st)
          | _ => channel_cache st
          end)
  ∧ (∀ (W : World) (cid : Z) (st : State),
        channel_cache st !! cid = None →
        (_fetch_channel W cid st).1
        = match get_channel_result W (length (trace st)) cid with
          | Some ch => if messageable ch then Ok (Some ch) else Ok None
          | None =>
              match fetch_channel_result W (S (length (trace st))) cid with
              | Ok ch => if messageable ch then Ok (Some ch) else Ok None
              | Raise e => if is_Exception e then Ok None else Raise e
              end
          end)
  ∧ (∀ (W : World) (cid : Z) (st : State),
        channel_cache st !! cid = None →
        (∀ ch, (_fetch_channel W cid st).1 ≠ Ok (Some ch)) →
        channel_cache (_fetch_channel W cid st).2 = channel_cache st
        ∧ ∃ evs,
            trace (_fetch_channel W cid (_fetch_channel W cid st).2).2
            = trace (_fetch_channel W cid st).2 ++ CallGetChannel cid :: evs).
Proof.
  split; [|split; [|split; [|split; [|split; [|split]]]]];
    [| | | |apply fetch_channel_cache_exact|apply fetch_channel_result_miss|].
  - intros W cid ch st. apply fetch_channel_hit.
  - intros W cid ch st Hok.
    pose proof (fetch_channel_stores W cid ch st Hok) as Hc.
    split; [done | by apply fetch_channel_hit].
  - intros W m d st. split; [|split].
    + intros cid. apply fetch_channel_cache_grows.
    + intros ns. apply deliver_cache_grows.
    + intros cycles. apply loop_cache_grows.
  - intros W m d cid ch st cycles Hc. apply fetch_channel_hit.
    by apply (lookup_weaken _ _ _ _ Hc), loop_cache_grows.
  - intros W cid st Hmiss Hnone.
    assert (Hsame : channel_cache (_fetch_channel W cid st).2 = channel_cache st).
    { rewrite fetch_channel_cache_exact.
      destruct (_fetch_channel W cid st).1 as [[ch|]|e] eqn:Hr; try done.
      by destruct (Hnone ch). }
    split; [done|]. apply fetch_channel_miss_consults. by rewrite Hsame.
Qed.

Lemma C7_cached_channel_reused_witness :
  ((_fetch_channel calm 42 (fresh [])).1
   = Ok (Some {| handle := 42; messageable := true |})
   ∧ trace (_fetch_channel calm 42 (_fetch_channel calm 42 (fresh [])).2).2
     = [CallGetChannel 42])
  ∧ (channel_cache (fresh []) !! 42 = None
     ∧ channel_cache (_fetch_channel no_channel 42 (fresh [])).2
       = channel_cache (fresh [])).
Proof.
  assert (H : (_fetch_channel calm 42 (fresh [])).1
              = Ok (Some {| handle := 42; messageable := true |}))
    by reflexivity.
  assert (Hmiss : channel_cache (fresh []) !! 42 = None) by reflexivity.
  split; [split; [exact H|] | split; [exact Hmiss|]].
  - rewrite (proj2 (proj1 (proj2 C7_cached_channel_reused) calm 42 _ (fresh []) H)).
    reflexivity.
  - apply (proj2 (proj2 (proj2 (proj2 (proj2 (proj2 C7_cached_channel_reused)))))
             no_channel 42 (fresh []) Hmiss).
    intros ch Hch. vm_compute in Hch. discriminate Hch.
Defined.

(** ** The delivery never skips a record for want of a channel id *)

Lemma delivery_log_not_no_mapping d n r i rcp :
  delivery_log d n r → r ≠ ErrNoChannelMapping i rcp.
Proof.
  intros [->|[[z [[e ->]| ->]]|[[z ->]|[->|[e ->]]]]]; discriminate.
Qed.

Lemma deliver_logs W m d ns st :
  ∃ logs,
    logged (_deliver_notifications W m d ns st).2 = logged st ++ logs
    ∧ Forall (λ r, ∀ i rcp, r ≠ ErrNoChannelMapping i rcp) logs.
Proof.
  revert st. induction ns as [|n rest IH]; intros st.
  - exists []. cbn. by rewrite app_nil_r.
  - rewrite deliver_cons.
    destruct (deliver_one_summary W m d n st)
      as (z & pre & evs & logs1 & _ & _ & Hl & Hlogs1 & _).
    assert (H1 : Forall (λ r, ∀ i rcp, r ≠ ErrNoChannelMapping i rcp) logs1).
    { eapply Forall_impl; [exact Hlogs1|].
      intros r Hr i rcp. by eapply delivery_log_not_no_mapping. }
    destruct (deliver_one W m d n st) as [[[]|e] st1]; cbn [snd] in *.
    + destruct (IH st1) as (logs2 & Hl2 & H2).
      exists (logs1 ++ logs2). rewrite Hl2, Hl, app_assoc.
      split; [done | by apply Forall_app].
    + by exists logs1.
Qed.

(** C10: for every recipient (None, the empty string, "self", a string
    absent from the channel mapping, or any other) the channel-id
    resolution returns an integer, never None; so the delivery never takes
    the branch that skips a record because no channel id was resolved: the
    log record of that branch is never written. *)
Theorem C10_channel_id_never_none :
  (∀ (m : gmap string Z) (d : Z) (recipient : option string) (st : State),
      ∃ z : Z, (_resolve_channel_id m d recipient st).1 = Ok (Some z))
  ∧ (∀ (W : World) (m : gmap string Z) (d : Z)
       (ns : list PushNotification) (st : State),
        ∃ logs,
          logged (_deliver_notifications W m d ns st).2 = logged st ++ logs
          ∧ Forall (λ r, ∀ i rcp, r ≠ ErrNoChannelMapping i rcp) logs).
Proof.
  split.
  - intros m d recipient st.
    destruct (resolve_total m d recipient st) as (z & logs & -> & _).
    by exists z.
  - apply deliver_logs.
Qed.

(** ** The poll loop *)

Lemma try_except_raise {A} (body : M A) handler st e st' :
  try_except body handler st = (Raise e, st') →
  (∀ e0 s, (handler e0 s).1 ≠ Raise e) →
  is_Exception e = false.
Proof.
  unfold try_except. intros H Hh.
  destruct (body st) as [[a|e0] st0]; [done|].
  destruct (is_Exception e0) eqn:He0.
  - destruct (Hh e0 st0). by rewrite H.
  - by injection H as <- <-.
Qed.

Section Loop.

Variable W : World.
Variable m : gmap string Z.
Variable d : Z.

(** Only what is not an instance of [Exception] leaves the [try]
    statement. *)
Lemma poll_once_raise st e st' :
  poll_once W m d st = (Raise e, st') → is_Exception e = false.
Proof.
  unfold poll_once. intros H.
  apply (try_except_raise _ _ _ _ _ H). intros e0 s. by cbn.
Qed.

Lemma poll_once_catches st e st1 :
  poll_body W m d st = (Raise e, st1) →
  is_Exception e = true →
  poll_once W m d st = (Ok (), add_logs [ExcUnexpected e] st1).
Proof.
  intros Hb He. unfold poll_once, try_except. by rewrite Hb, He.
Qed.

Lemma poll_body_fetch_fails st e :
  select_result W (length (trace st)) = Some e →
  poll_body W m d st = (Raise e, add_events [CallSelect] st).
Proof.
  intros Hsel. unfold poll_body, to_thread.
  unfold bind. by rewrite fetch_pending_result, Hsel.
Qed.

Lemma while_next_cycle cycles st st1 :
  is_closed_result W (length (trace st)) = false →
  poll_once W m d (add_events [CallIsClosed] st) = (Ok (), st1) →
  sleep_result W (length (trace st1)) = None →
  while_not_closed W m d (S cycles) st
  = while_not_closed W m d cycles (add_events [CallSleep] st1).
Proof.
  intros Hc Hp Hs. cbn [while_not_closed].
  unfold bind at 1, call. rewrite Hc.
  rewrite (bind_ok _ _ _ _ _ Hp).
  unfold sleep. run. by rewrite Hs.
Qed.

Lemma while_raise cycles st e st' :
  (∀ t e0, sleep_result W t = Some e0 → is_Exception e0 = false) →
  while_not_closed W m d cycles st = (Raise e, st') →
  is_Exception e = false.
Proof.
  intros Hsleep. revert st.
  induction cycles as [|cycles IH]; intros st; [done|].
  cbn [while_not_closed]. unfold bind at 1, call.
  destruct (is_closed_result W (length (trace st))); [done|].
  unfold bind at 1.
  destruct (poll_once W m d (add_events [CallIsClosed] st))
    as [[[]|e0] st1] eqn:Hp.
  - unfold bind at 1, sleep. run.
    destruct (sleep_result W (length (trace st1))) as [e1|] eqn:Hs; cbn.
    + intros [= <- <-]. by eapply Hsleep.
    + apply IH.
  - intros [= <- <-]. by eapply poll_once_raise.
Qed.

(** What is not an instance of [Exception] goes through the [try]
    statement untouched, and ends the loop and the task. *)
Lemma poll_once_lets_through st e st1 :
  poll_body W m d st = (Raise e, st1) →
  is_Exception e = false →
  poll_once W m d st = (Raise e, st1).
Proof.
  intros Hb He. unfold poll_once, try_except. by rewrite Hb, He.
Qed.

Lemma while_ends cycles st e st1 :
  is_closed_result W (length (trace st)) = false →
  poll_once W m d (add_events [CallIsClosed] st) = (Raise e, st1) →
  while_not_closed W m d (S cycles) st = (Raise e, st1).
Proof.
  intros Hc Hp. cbn [while_not_closed]. unfold bind at 1, call. rewrite Hc.
  by rewrite (bind_raise _ _ _ _ _ Hp).
Qed.

Lemma loop_ends cycles st e st1 :
  wait_until_ready_result W (length (trace st)) = None →
  while_not_closed W m d cycles (add_events [CallWaitUntilReady] st)
  = (Raise e, st1) →
  _forward_notifications_loop W m d cycles st = (Raise e, st1).
Proof.
  intros Hw Hl. unfold _forward_notifications_loop.
  unfold bind at 1, call. unfold bind at 1, check. by rewrite Hw.
Qed.

End Loop.

(** C6 as written fails for what is not an instance of Exception: the
    cancellation of the task during the fetch is not caught by the loop
    body; it crosses out of the loop, and no sleep and no further cycle
    follow. *)
Lemma C6_counterexample_cancellation :
  (poll_once cancelled ∅ 7 (fresh rows_539)).1
  = Raise (BaseExceptionOnly "CancelledError")
  ∧ (_forward_notifications_loop cancelled ∅ 7 3 (fresh rows_539)).1
    = Raise (BaseExceptionOnly "CancelledError")
  ∧ trace (_forward_notifications_loop cancelled ∅ 7 3 (fresh rows_539)).2
    = [CallWaitUntilReady; CallIsClosed; CallSelect]
  ∧ logged (_forward_notifications_loop cancelled ∅ 7 3 (fresh rows_539)).2 = [].
Proof. repeat split. Qed.

(** C6, as the code has it: every exception that is an instance of
    Exception and is raised by the fetch or left uncaught by the delivery
    is caught inside the loop body and logged; none of them crosses out of
    the [try] statement, the sleep follows and, when it returns, the next
    cycle is attempted, so the loop never ends because of such an error.
    What is not an instance of Exception (the cancellation of the task)
    is not caught: it leaves the [try] statement untouched and unlogged,
    no sleep and no further cycle follow, and it ends the loop and the
    task. *)
Theorem C6_errors_stay_in_the_cycle (W : World) (m : gmap string Z) (d : Z) :
  (∀ st e st', poll_once W m d st = (Raise e, st') → is_Exception e = false)
  ∧ (∀ st e st1,
        poll_body W m d st = (Raise e, st1) →
        is_Exception e = true →
        poll_once W m d st = (Ok (), add_logs [ExcUnexpected e] st1))
  ∧ (∀ st e,
        select_result W (length (trace st)) = Some e →
        is_Exception e = true →
        poll_once W m d st
        = (Ok (), add_logs [ExcUnexpected e] (add_events [CallSelect] st)))
  ∧ (∀ cycles st st1,
        is_closed_result W (length (trace st)) = false →
        poll_once W m d (add_events [CallIsClosed] st) = (Ok (), st1) →
        sleep_result W (length (trace st1)) = None →
        while_not_closed W m d (S cycles) st
        = while_not_closed W m d cycles (add_events [CallSleep] st1))
  ∧ (∀ cycles st e st',
        (∀ t e0, sleep_result W t = Some e0 → is_Exception e0 = false) →
        while_not_closed W m d cycles st = (Raise e, st') →
        is_Exception e = false)
  ∧ (∀ st e st1,
        poll_body W m d st = (Raise e, st1) →
        is_Exception e = false →
        poll_once W m d st = (Raise e, st1))
  ∧ (∀ st e,
        select_result W (length (trace st)) = Some e →
        is_Exception e = false →
        poll_once W m d st = (Raise e, add_events [CallSelect] st))
  ∧ (∀ cycles st e st1,
        is_closed_result W (length (trace st)) = false →
        poll_once W m d (add_events [CallIsClosed] st) = (Raise e, st1) →
        while_not_closed W m d (S cycles) st = (Raise e, st1))
  ∧ (∀ cycles st e st1,
        wait_until_ready_result W (length (trace st)) = None →
        while_not_closed W m d cycles (add_events [CallWaitUntilReady] st)
        = (Raise e, st1) →
        _forward_notifications_loop W m d cycles st = (Raise e, st1)).
Proof.
  split; [|split; [|split; [|split; [|split; [|split; [|split; [|split]]]]]]].
  - apply poll_once_raise.
  - apply poll_once_catches.
  - intros st e Hsel He.
    apply poll_once_catches; [by apply poll_body_fetch_fails | done].
  - apply while_next_cycle.
  - apply while_raise.
  - apply poll_once_lets_through.
  - intros st e Hsel He.
    apply poll_once_lets_through; [by apply poll_body_fetch_fails | done].
  - apply while_ends.
  - apply loop_ends.
Qed.

Lemma C6_errors_stay_in_the_cycle_witness :
  poll_once db_down ∅ 7 (fresh rows_539)
  = (Ok (), add_logs [ExcUnexpected (ExceptionInstance "OperationalError")]
              (add_events [CallSelect] (fresh rows_539)))
  ∧ while_not_closed db_down ∅ 7 2 (fresh rows_539)
    = while_not_closed db_down ∅ 7 1
        (add_events [CallSleep]
           (add_logs [ExcUnexpected (ExceptionInstance "OperationalError")]
              (add_events [CallSelect] (add_events [CallIsClosed] (fresh rows_539)))))
  ∧ poll_once cancelled ∅ 7 (fresh rows_539)
    = (Raise (BaseExceptionOnly "CancelledError"),
       add_events [CallSelect] (fresh rows_539))
  ∧ while_not_closed cancelled ∅ 7 3 (fresh rows_539)
    = (Raise (BaseExceptionOnly "CancelledError"),
       add_events [CallSelect] (add_events [CallIsClosed] (fresh rows_539))).
Proof.
  split; [|split; [|split]].
  - apply (proj1 (proj2 (proj2 (C6_errors_stay_in_the_cycle db_down ∅ 7))));
      reflexivity.
  - apply (proj1 (proj2 (proj2 (proj2 (C6_errors_stay_in_the_cycle db_down ∅ 7)))));
      reflexivity.
  - apply (proj1 (proj2 (proj2 (proj2 (proj2 (proj2 (proj2
             (C6_errors_stay_in_the_cycle cancelled ∅ 7))))))));
      reflexivity.
  - apply (proj1 (proj2 (proj2 (proj2 (proj2 (proj2 (proj2 (proj2
             (C6_errors_stay_in_the_cycle cancelled ∅ 7)))))))));
      reflexivity.
Defined.

(** * Further properties *)

(** ** The formatter *)

(** X1: Whatever the record, the text fits the 2000 characters of the
    platform. *)
Theorem format_fits_limit (n : PushNotification) :
  (PyStr.len (to_discord_message n).1 <= 2000)%nat.
Proof.
  unfold to_discord_message.
  destruct (Nat.ltb_spec 2000 (PyStr.len (content_of n))) as [Hgt|Hle];
    cbn [fst]; [|done].
  rewrite len_append, len_take. change (PyStr.len "...") with 3%nat. lia.
Qed.

Lemma lstrip_nonspace (c : ascii) (s : string) :
  PyStr.isspace c = false → PyStr.lstrip (String c s) = String c s.
Proof. intros H. cbn. by rewrite H. Qed.

Lemma rstrip_nonspace_head (c : ascii) (s : string) :
  PyStr.isspace c = false → ∃ s', PyStr.rstrip (String c s) = String c s'.
Proof.
  intros H. cbn. destruct (PyStr.rstrip s) as [|d r].
  - rewrite H. by exists EmptyString.
  - by exists (String d r).
Qed.

Lemma append_cons (x : ascii) (a b : string) :
  String x a +:+ b = String x (a +:+ b).
Proof. reflexivity. Qed.

Lemma append_assoc (a b c : string) : (a +:+ b) +:+ c = a +:+ (b +:+ c).
Proof.
  induction a as [|x a IH]; [done|]. by rewrite !append_cons, IH.
Qed.

(** Trailing white space is trimmed from the last part only, when that
    part does not vanish. *)
Lemma rstrip_append (s t : string) :
  PyStr.rstrip t ≠ EmptyString →
  PyStr.rstrip (s +:+ t) = s +:+ PyStr.rstrip t.
Proof.
  intros Ht. induction s as [|c s IH]; [done|].
  rewrite append_cons. cbn [PyStr.rstrip]. rewrite IH.
  destruct (s +:+ PyStr.rstrip t) as [|d r] eqn:Hs; [|by rewrite append_cons, Hs].
  destruct s; [done | discriminate Hs].
Qed.

(** X2: The text is never empty: it starts with the bracket of the header. *)
Theorem format_starts_with_bracket (n : PushNotification) :
  ∃ rest, (to_discord_message n).1 = String "[" rest.
Proof.
  assert (Hc : ∃ rest, content_of n = String "[" rest).
  { unfold content_of, PyStr.strip. rewrite !append_cons.
    rewrite lstrip_nonspace by reflexivity.
    by apply rstrip_nonspace_head. }
  destruct Hc as [rest Hc]. unfold to_discord_message. rewrite Hc.
  destruct (2000 <? PyStr.len (String "[" rest))%nat; cbn; eauto.
Qed.

Lemma content_without_body (n : PushNotification) :
  message n = None ∨ message n = Some EmptyString →
  content_of n
  = ("[" +:+ network n +:+ "] " +:+ window n +:+ " (" +:+ type n +:+ ")")
      +:+ String PyStr.LF (spec_author n +:+ ":").
Proof.
  intros Hm. unfold content_of, PyStr.strip.
  rewrite author_as_specified.
  replace (PyStr.or_str (message n) EmptyString) with EmptyString
    by (by destruct Hm as [-> | ->]).
  set (header := "[" +:+ network n +:+ "] " +:+ window n +:+ " (" +:+ type n +:+ ")").
  assert (Hh : ∃ h, header = String "[" h) by (by eexists).
  destruct Hh as [h Hh].
  replace (header +:+ String PyStr.LF (spec_author n +:+ ": " +:+ EmptyString))
    with ((header +:+ String PyStr.LF (spec_author n)) +:+ ": ").
  2:{ rewrite append_assoc, append_cons. reflexivity. }
  replace (header +:+ String PyStr.LF (spec_author n +:+ ":"))
    with ((header +:+ String PyStr.LF (spec_author n)) +:+ ":").
  2:{ by rewrite append_assoc, append_cons. }
  rewrite Hh at 1. rewrite !append_cons.
  rewrite lstrip_nonspace by reflexivity.
  rewrite <- !append_cons, <- Hh. by rewrite rstrip_append.
Qed.

(** X3: With no message, or an empty one, the blank after the colon is
    trimmed: the text ends with the author and a colon. *)
Theorem format_without_body (n : PushNotification) :
  message n = None ∨ message n = Some EmptyString →
  (PyStr.len (content_of n) <= 2000)%nat →
  to_discord_message n
  = (("[" +:+ network n +:+ "] " +:+ window n +:+ " (" +:+ type n +:+ ")")
       +:+ String PyStr.LF (spec_author n +:+ ":"), []).
Proof.
  intros Hm Hlen. unfold to_discord_message.
  destruct (Nat.ltb_spec 2000 (PyStr.len (content_of n))); [lia|].
  by rewrite (content_without_body n Hm).
Qed.

Lemma format_without_body_witness :
  to_discord_message
    {| id := 1; network := "n"; window := "w"; type := "msg";
       user := Some "bob"; nick := None; message := None;
       recipient := None |}
  = ("[n] w (msg)" +:+ String PyStr.LF "bob:", []).
Proof.
  apply (format_without_body
           {| id := 1; network := "n"; window := "w"; type := "msg";
              user := Some "bob"; nick := None; message := None;
              recipient := None |}).
  - by left.
  - vm_compute. lia.
Defined.

(** ** The channel-map parser *)

Lemma split_nonempty (sep : ascii) (s : string) : PyStr.split sep s ≠ [].
Proof.
  induction s as [|c s IH]; cbn; [done|].
  destruct (Ascii.eqb c sep); [done|]. by destruct (PyStr.split sep s).
Qed.

(** Splitting at a separator that is there. *)
Lemma split_append (sep : ascii) (s t : string) :
  PyStr.split sep (s +:+ String sep t) = PyStr.split sep s ++ PyStr.split sep t.
Proof.
  induction s as [|c s IH].
  - change (PyStr.split sep (String sep t) = [EmptyString] ++ PyStr.split sep t).
    cbn [PyStr.split]. by rewrite Ascii.eqb_refl.
  - rewrite append_cons. cbn [PyStr.split]. rewrite IH.
    destruct (Ascii.eqb c sep); [done|].
    pose proof (split_nonempty sep s) as Hne.
    by destruct (PyStr.split sep s).
Qed.

Lemma parse_channel_map_fold (raw : string) :
  parse_channel_map (Some raw) = fold_left parse_entry (PyStr.split "," raw) (∅, []).
Proof. by destruct raw. Qed.

(** X5: The parse goes entry by entry: what follows a comma is parsed on top
    of what precedes it; in particular a trailing comma changes
    nothing. *)
Theorem parse_channel_map_incremental (r1 r2 : string) :
  parse_channel_map (Some (r1 +:+ "," +:+ r2))
  = fold_left parse_entry (PyStr.split "," r2) (parse_channel_map (Some r1))
  ∧ parse_channel_map (Some (r1 +:+ ",")) = parse_channel_map (Some r1).
Proof.
  assert (H : ∀ r, parse_channel_map (Some (r1 +:+ "," +:+ r))
                   = fold_left parse_entry (PyStr.split "," r)
                       (parse_channel_map (Some r1))).
  { intros r. rewrite !parse_channel_map_fold. change ("," +:+ r) with (String "," r).
    by rewrite split_append, fold_left_app. }
  split; [apply H|].
  change (r1 +:+ ",") with (r1 +:+ "," +:+ EmptyString). rewrite H.
  cbn [PyStr.split fold_left]. by destruct (parse_channel_map (Some r1)).
Qed.

(** Where a binding of the parsed mapping comes from. *)
Lemma parse_entries_lookup entries k v mapping logs :
  (fold_left parse_entry entries (mapping, logs)).1 !! k = Some v →
  mapping !! k = Some v ∨ ∃ e, e ∈ entries ∧ well_formed e k v.
Proof.
  revert mapping logs.
  induction entries as [|e es IH]; intros mapping logs; cbn [fold_left fst];
    [by left|].
  destruct (parse_entry_cases mapping logs e) as [Hsame|(k' & v' & Hwf & Heq)].
  - destruct (parse_entry (mapping, logs) e) as [m' l']. cbn [fst] in Hsame.
    subst m'. intros H. destruct (IH _ _ H) as [?|(e' & ? & ?)]; [by left|].
    right. exists e'. split; [by right | done].
  - rewrite Heq. intros H.
    destruct (IH _ _ H) as [Hl|(e' & ? & ?)].
    + destruct (decide (k' = k)) as [->|Hne].
      * rewrite lookup_insert_eq in Hl. injection Hl as <-.
        right. exists e. split; [by left | done].
      * rewrite lookup_insert_ne in Hl by done. by left.
    + right. exists e'. split; [by right | done].
Qed.

Lemma parse_entries_keeps entries k mapping logs :
  is_Some (mapping !! k) →
  is_Some ((fold_left parse_entry entries (mapping, logs)).1 !! k).
Proof.
  revert mapping logs.
  induction entries as [|e es IH]; intros mapping logs Hk; cbn [fold_left fst];
    [done|].
  destruct (parse_entry_cases mapping logs e) as [Hsame|(k' & v' & Hwf & Heq)].
  - destruct (parse_entry (mapping, logs) e) as [m' l']. cbn [fst] in Hsame.
    subst m'. by apply IH.
  - rewrite Heq. apply IH. rewrite lookup_insert. by case_decide.
Qed.

Lemma parse_entries_binds entries e k v mapping logs :
  e ∈ entries → well_formed e k v →
  is_Some ((fold_left parse_entry entries (mapping, logs)).1 !! k).
Proof.
  revert mapping logs.
  induction entries as [|e' es IH]; intros mapping logs Hin Hwf;
    [by apply elem_of_nil in Hin|].
  cbn [fold_left]. apply elem_of_cons in Hin as [->|Hin].
  - rewrite (parse_entry_well_formed mapping logs e' k v Hwf).
    apply parse_entries_keeps. rewrite lookup_insert_eq. by eexists.
  - destruct (parse_entry (mapping, logs) e') as [m' l']. by apply IH.
Qed.

Lemma parse_channel_map_lookup (raw k : string) (v : Z) :
  (parse_channel_map (Some raw)).1 !! k = Some v →
  ∃ e, e ∈ PyStr.split "," raw ∧ well_formed e k v.
Proof.
  rewrite parse_channel_map_fold. intros H.
  by destruct (parse_entries_lookup _ _ _ _ _ H) as [?|?].
Qed.

(** X4: The keys of the parsed mapping are exactly the recipients of the
    well-formed entries, each bound to the id of one of its entries; no
    key is empty. *)
Theorem parse_channel_map_keys (raw k : string) :
  (is_Some ((parse_channel_map (Some raw)).1 !! k)
   ↔ ∃ e v, e ∈ PyStr.split "," raw ∧ well_formed e k v)
  ∧ (∀ v, (parse_channel_map (Some raw)).1 !! k = Some v →
          k ≠ EmptyString ∧ ∃ e, e ∈ PyStr.split "," raw ∧ well_formed e k v).
Proof.
  split; [split|].
  - intros [v H]. destruct (parse_channel_map_lookup raw k v H) as (e & ? & ?).
    by exists e, v.
  - intros (e & v & Hin & Hwf). rewrite parse_channel_map_fold.
    by eapply parse_entries_binds.
  - intros v H. destruct (parse_channel_map_lookup raw k v H) as (e & Hin & Hwf).
    split; [|by exists e]. by destruct Hwf as (_ & _ & ? & _).
Qed.

Lemma parse_channel_map_keys_witness :
  (parse_channel_map (Some "a=1,b=")).1 !! "a" = Some 1
  ∧ "a" ≠ EmptyString
  ∧ ∃ e, e ∈ PyStr.split "," "a=1,b=" ∧ well_formed e "a" 1.
Proof.
  assert (H : (parse_channel_map (Some "a=1,b=")).1 !! "a" = Some 1) by reflexivity.
  split; [exact H|]. exact (proj2 (parse_channel_map_keys "a=1,b=" "a") 1 H).
Defined.

(** The last well-formed entry for a recipient decides its binding. *)
Lemma parse_channel_map_last raw es1 e es3 k v :
  PyStr.split "," raw = es1 ++ e :: es3 →
  well_formed e k v →
  Forall (λ e', ∀ v', ¬ well_formed e' k v') es3 →
  (parse_channel_map (Some raw)).1 !! k = Some v.
Proof.
  intros Hsplit Hwf Hrest.
  rewrite parse_channel_map_fold, Hsplit, fold_left_app. cbn [fold_left].
  destruct (fold_left parse_entry es1 (∅, [])) as [m0 l0].
  rewrite (parse_entry_well_formed m0 l0 e k v Hwf).
  rewrite parse_entries_other by done. apply lookup_insert_eq.
Qed.

(** ** Parsing, then resolving *)

(** X6: A recipient bound by the channel-map string resolves to the id of
    its last well-formed entry, without a warning; a recipient that no
    well-formed entry binds, and that is neither empty nor "self",
    resolves to the default channel id with a warning. *)
Theorem parsed_recipient_resolves (raw : string) (d : Z) (k : string) (st : State) :
  (∀ es1 e es3 v,
      PyStr.split "," raw = es1 ++ e :: es3 →
      well_formed e k v →
      Forall (λ e', ∀ v', ¬ well_formed e' k v') es3 →
      _resolve_channel_id (parse_channel_map (Some raw)).1 d (Some k) st
      = (Ok (Some v), st))
  ∧ (Forall (λ e, ∀ v, ¬ well_formed e k v) (PyStr.split "," raw) →
     k ≠ EmptyString → k ≠ "self" →
     _resolve_channel_id (parse_channel_map (Some raw)).1 d (Some k) st
     = (Ok (Some d), add_logs [WarnRecipientNotInMap (Some k) d] st)).
Proof.
  split.
  - intros es1 e es3 v Hsplit Hwf Hrest. apply resolve_mapped.
    exists k. split; [done|]. split; [by destruct Hwf as (_ & _ & ? & _)|].
    by eapply parse_channel_map_last.
  - intros Hnone Hne Hself. apply resolve_unknown.
    exists k. repeat split; try done.
    destruct ((parse_channel_map (Some raw)).1 !! k) as [v|] eqn:Hk; [|done].
    destruct (parse_channel_map_lookup raw k v Hk) as (e & Hin & Hwf).
    destruct (proj1 (Forall_forall _ _) Hnone e Hin v Hwf).
Qed.

Lemma parsed_recipient_resolves_witness :
  _resolve_channel_id (parse_channel_map (Some "ops=1, ops = 42 ,x")).1 7
    (Some "ops") (fresh [])
  = (Ok (Some 42), fresh [])
  ∧ _resolve_channel_id (parse_channel_map (Some "ops=1, ops = 42 ,x")).1 7
      (Some "dev") (fresh [])
    = (Ok (Some 7), add_logs [WarnRecipientNotInMap (Some "dev") 7] (fresh [])).
Proof.
  split.
  - apply (proj1 (parsed_recipient_resolves "ops=1, ops = 42 ,x" 7 "ops" (fresh []))
             ["ops=1"] " ops = 42 " ["x"] 42).
    + reflexivity.
    + repeat split; done.
    + constructor; [|constructor]. by intros v (Hc & _).
  - apply (proj2 (parsed_recipient_resolves "ops=1, ops = 42 ,x" 7 "dev" (fresh []))).
    + repeat constructor; intros v (Hc & Hk & _); vm_compute in Hc, Hk;
        first [discriminate Hc | discriminate Hk].
    + done.
    + done.
Defined.

(** ** The loop body in closed form *)

Lemma send_and_delete_run W n ch st2 :
  bind (try_except
          (let '(text, warnings) := to_discord_message n in
           log_all warnings ;;;
           t <- call (CallSend ch text) ;;
           check (send_result W t ch text) ;;;
           ret true)
          (λ e, log (ExcSendFailed (id n) e) ;;; ret false))
       (λ sent : bool, if sent then to_thread (_delete_push_row W (id n)) else ret ())
       st2
  = send_and_delete W n ch st2.
Proof.
  unfold send_and_delete, text_of, _delete_push_row.
  destruct (to_discord_message n) as [text warnings]. cbn [fst snd]. run.
  destruct (send_result W (length (trace st2)) ch text) as [e|]; cbn.
  - by destruct (is_Exception e).
  - rewrite length_app. cbn [length]. rewrite Nat.add_1_r.
    by destruct (delete_result W (S (length (trace st2))) (id n)).
Qed.

Lemma deliver_one_unfold W m d n st :
  ∃ z logs0,
    _resolve_channel_id m d (recipient n) st = (Ok (Some z), add_logs logs0 st)
    ∧ (logs0 = [] ∨ logs0 = [WarnRecipientNotInMap (recipient n) d])
    ∧ deliver_one W m d n st
      = match _fetch_channel W z (add_logs logs0 st) with
        | (Ok (Some ch), st2) => send_and_delete W n ch st2
        | (Ok None, st2) => (Ok (), add_logs [ErrChannelNotFetched (id n) z] st2)
        | (Raise e, st2) => (Raise e, st2)
        end.
Proof.
  destruct (resolve_total m d (recipient n) st) as (z & logs0 & Hres & Hlogs0).
  exists z, logs0. split; [done|]. split; [done|].
  unfold deliver_one. rewrite (bind_ok _ _ _ _ _ Hres).
  destruct (_fetch_channel W z (add_logs logs0 st)) as [[[ch|]|e] st2] eqn:Hf.
  - rewrite (bind_ok _ _ _ _ _ Hf). apply send_and_delete_run.
  - by rewrite (bind_ok _ _ _ _ _ Hf).
  - by rewrite (bind_raise _ _ _ _ _ Hf).
Qed.

(** ** Deleting a row *)

(** X7: A delete that succeeds removes the rows with that id and no other,
    keeping the order of the rest; when no row has the id the store is
    unchanged.  A delete that fails leaves the store as it was and
    raises. *)
Theorem delete_push_row_effect (W : World) (row_id : Z) (st : State) :
  (delete_result W (length (trace st)) row_id = None →
   (_delete_push_row W row_id st).1 = Ok ()
   ∧ (∀ row, row ∈ store (_delete_push_row W row_id st).2
             ↔ row ∈ store st ∧ Models.id row ≠ row_id)
   ∧ store (_delete_push_row W row_id st).2 `sublist_of` store st
   ∧ (Forall (λ row, Models.id row ≠ row_id) (store st) →
      store (_delete_push_row W row_id st).2 = store st))
  ∧ (∀ e, delete_result W (length (trace st)) row_id = Some e →
          _delete_push_row W row_id st = (Raise e, add_events [CallDelete row_id] st)).
Proof.
  unfold _delete_push_row. run. split.
  - intros ->. cbn. split; [done|]. split; [|split].
    + intros row. rewrite list_elem_of_filter. tauto.
    + apply sublist_filter.
    + intros Hall. induction (store st) as [|r rows IH]; [done|].
      apply Forall_cons in Hall as [Hr Hrows].
      rewrite filter_cons_True by done. by rewrite IH.
  - by intros e ->.
Qed.

Lemma delete_push_row_effect_witness :
  (_delete_push_row calm 3 (fresh rows_539)).1 = Ok ()
  ∧ store (_delete_push_row calm 3 (fresh rows_539)).2
    = [sample_row 5 "five"; sample_row 9 "nine"]
  ∧ _delete_push_row delete_fails 3 (fresh rows_539)
    = (Raise (ExceptionInstance "OperationalError"),
       add_events [CallDelete 3] (fresh rows_539)).
Proof.
  split; [|split].
  - apply (proj1 (delete_push_row_effect calm 3 (fresh rows_539))). reflexivity.
  - reflexivity.
  - apply (proj2 (delete_push_row_effect delete_fails 3 (fresh rows_539))).
    reflexivity.
Defined.

(** ** Resolving a channel handle *)

(** X8: A call consults the client only on a cache miss, and goes to the
    network ([fetch_channel]) only when the client's own lookup
    ([get_channel]) found nothing. *)
Theorem fetch_channel_calls (W : World) (cid : Z) (st : State) :
  trace (_fetch_channel W cid st).2
  = trace st
    ++ match channel_cache st !! cid with
       | Some _ => []
       | None =>
           match get_channel_result W (length (trace st)) cid with
           | Some _ => [CallGetChannel cid]
           | None => [CallGetChannel cid; CallFetchChannel cid]
           end
       end.
Proof.
  unfold _fetch_channel. run.
  destruct (channel_cache st !! cid) as [ch|]; cbn; [by rewrite app_nil_r|].
  destruct (get_channel_result W (length (trace st)) cid) as [ch|]; cbn.
  - by destruct (messageable ch).
  - destruct (fetch_channel_result W (length (trace st ++ [CallGetChannel cid])) cid)
      as [ch|e]; cbn.
    + destruct (messageable ch); cbn; by rewrite <- app_assoc.
    + destruct (is_Exception e); cbn; by rewrite <- app_assoc.
Qed.

(** Only handles that can receive text are returned and cached. *)
Lemma fetch_channel_messageable W cid st :
  cache_ok st →
  cache_ok (_fetch_channel W cid st).2
  ∧ ∀ ch, (_fetch_channel W cid st).1 = Ok (Some ch) → messageable ch = true.
Proof.
  intros Hok. unfold _fetch_channel. run.
  destruct (channel_cache st !! cid) as [ch|] eqn:Hc; cbn.
  { split; [done|]. intros ch' [= <-]. by eapply Hok. }
  assert (Hins : ∀ ch s, messageable ch = true →
            channel_cache s = channel_cache st →
            cache_ok (with_cached cid ch s)).
  { intros ch s Hm Hs cid' ch'. cbn. rewrite Hs, lookup_insert.
    case_decide; [by intros [= <-] | apply Hok]. }
  destruct (get_channel_result W (length (trace st)) cid) as [ch|]; cbn.
  - destruct (messageable ch) eqn:Hm; cbn.
    + split; [by apply Hins|]. by intros ch' [= <-].
    + split; [done | by intros ch' [=]].
  - destruct (fetch_channel_result W (length (trace st ++ [CallGetChannel cid])) cid)
      as [ch|e]; cbn.
    + destruct (messageable ch) eqn:Hm; cbn.
      * split; [by apply Hins|]. by intros ch' [= <-].
      * split; [done | by intros ch' [=]].
    + destruct (is_Exception e); cbn; (split; [done | by intros ch' [=]]).
Qed.

Lemma sent_channels_app evs1 evs2 :
  sent_channels (evs1 ++ evs2) = sent_channels evs1 ++ sent_channels evs2.
Proof. apply omap_app. Qed.

Lemma resolution_not_send z pre :
  Forall (resolution_event z) pre → sent_channels pre = [] ∧ sent_texts pre = []
                                   ∧ deleted_ids pre = [].
Proof.
  induction 1 as [|ev pre [-> | ->] _ (IHc & IHs & IHd)]; [done|..];
    unfold sent_channels, sent_texts, deleted_ids in *; cbn;
    by rewrite ?IHc, ?IHs, ?IHd.
Qed.

(** What [send_and_delete] adds to the trace, and that it leaves the
    cache alone. *)
Lemma send_and_delete_trace W n ch st2 :
  channel_cache (send_and_delete W n ch st2).2 = channel_cache st2
  ∧ ∃ evs, trace (send_and_delete W n ch st2).2 = trace st2 ++ evs
           ∧ sent_channels evs = [ch].
Proof.
  unfold send_and_delete.
  destruct (send_result W (length (trace st2)) ch (text_of n)) as [e|].
  - destruct (is_Exception e); cbn; (split; [done|]);
      by exists [CallSend ch (text_of n)].
  - destruct (delete_result W (S (length (trace st2))) (id n)); cbn;
      (split; [done|]);
      exists [CallSend ch (text_of n); CallDelete (id n)];
      by rewrite <- app_assoc.
Qed.

Lemma deliver_one_messageable W m d n st :
  cache_ok st →
  cache_ok (deliver_one W m d n st).2
  ∧ ∃ evs, trace (deliver_one W m d n st).2 = trace st ++ evs
           ∧ Forall (λ ch, messageable ch = true) (sent_channels evs).
Proof.
  intros Hok.
  destruct (deliver_one_unfold W m d n st) as (z & logs0 & _ & _ & ->).
  assert (Hok1 : cache_ok (add_logs logs0 st)) by done.
  destruct (fetch_channel_messageable W z _ Hok1) as [Hok2 Hm].
  destruct (fetch_channel_footprint W z (add_logs logs0 st))
    as (pre & logs1 & (_ & Ht & _) & Hpre & _).
  destruct (resolution_not_send z pre Hpre) as (Hnone & _).
  destruct (_fetch_channel W z (add_logs logs0 st)) as [[[ch|]|e] st2];
    cbn [fst snd] in *; cbn [add_logs trace] in Ht.
  - destruct (send_and_delete_trace W n ch st2) as [Hc (evs & Hevs & Hs)].
    split; [intros cid ch'; rewrite Hc; apply Hok2|].
    exists (pre ++ evs). rewrite Hevs, Ht, app_assoc. split; [done|].
    rewrite sent_channels_app, Hnone, Hs. constructor; [by apply Hm | constructor].
  - split; [done|]. exists pre. split; [done|]. by rewrite Hnone.
  - split; [done|]. exists pre. split; [done|]. by rewrite Hnone.
Qed.

Lemma deliver_only_to_messageable (W : World) (m : gmap string Z) (d : Z)
    (ns : list PushNotification) (st : State) :
  cache_ok st →
  cache_ok (_deliver_notifications W m d ns st).2
  ∧ ∃ evs, trace (_deliver_notifications W m d ns st).2 = trace st ++ evs
           ∧ Forall (λ ch, messageable ch = true) (sent_channels evs).
Proof.
  revert st. induction ns as [|n rest IH]; intros st Hok.
  - split; [done|]. exists []. by rewrite app_nil_r.
  - rewrite deliver_cons.
    destruct (deliver_one_messageable W m d n st Hok) as [Hok1 (evs1 & H1 & Hm1)].
    destruct (deliver_one W m d n st) as [[[]|e] st1]; cbn [snd] in *.
    + destruct (IH st1 Hok1) as [Hok2 (evs2 & H2 & Hm2)].
      split; [done|]. exists (evs1 ++ evs2). rewrite H2, H1, app_assoc.
      split; [done|]. rewrite sent_channels_app. by apply Forall_app.
    + split; [done|]. by exists evs1.
Qed.

(** ** Records that are skipped or sent twice *)

(** X10: A record whose channel cannot be fetched is skipped: nothing is sent
    or deleted for it, its row stays in the store, the skip is logged and
    the delivery goes on with the next record. *)
Theorem deliver_skips_unfetched_channel (W : World) (m : gmap string Z) (d : Z)
    (n : PushNotification) (rest : list PushNotification)
    (st st1 st2 : State) (z : Z) :
  _resolve_channel_id m d (recipient n) st = (Ok (Some z), st1) →
  _fetch_channel W z st1 = (Ok None, st2) →
  _deliver_notifications W m d (n :: rest) st
  = _deliver_notifications W m d rest
      (add_logs [ErrChannelNotFetched (id n) z] st2)
  ∧ store st2 = store st
  ∧ ∃ evs, trace st2 = trace st ++ evs
           ∧ sent_texts evs = [] ∧ deleted_ids evs = [].
Proof.
  intros Hres Hf.
  destruct (deliver_one_unfold W m d n st) as (z' & logs0 & Hres' & _ & Hone).
  rewrite Hres in Hres'. injection Hres' as <- ->.
  rewrite Hf in Hone. split; [by rewrite deliver_cons, Hone|].
  destruct (fetch_channel_footprint W z (add_logs logs0 st))
    as (pre & logs1 & (Hs & Ht & _) & Hpre & _).
  rewrite Hf in Hs, Ht. cbn in Hs, Ht. split; [done|].
  exists pre. split; [done|].
  by destruct (resolution_not_send z pre Hpre) as (_ & ? & ?).
Qed.

Lemma deliver_skips_unfetched_channel_witness :
  store (_deliver_notifications no_channel ∅ 7
           (notification_of_row <$> rows_539) (fresh rows_539)).2
  = rows_539.
Proof.
  destruct (deliver_skips_unfetched_channel no_channel ∅ 7
              (notification_of_row (sample_row 5 "five"))
              [notification_of_row (sample_row 3 "three");
               notification_of_row (sample_row 9 "nine")]
              (fresh rows_539) (fresh rows_539)
              (add_logs [ExcFetchChannelFailed 7 (ExceptionInstance "NotFound")]
                 (add_events [CallGetChannel 7; CallFetchChannel 7] (fresh rows_539)))
              7) as [H _]; [reflexivity | reflexivity |].
  change (notification_of_row <$> rows_539)
    with [notification_of_row (sample_row 5 "five");
          notification_of_row (sample_row 3 "three");
          notification_of_row (sample_row 9 "nine")].
  rewrite H. reflexivity.
Defined.

(** X11: When the delete after a successful send fails, the row stays in the
    store although its text was sent, and the error ends the batch: the
    records after it are not processed.  Every row of the store,
    the one just sent included, is in the batch of the next fetch. *)
Theorem deliver_delete_fails (W : World) (m : gmap string Z) (d : Z)
    (n : PushNotification) (rest : list PushNotification)
    (st st1 st2 : State) (z : Z) (ch : Channel) (e : raised) :
  _resolve_channel_id m d (recipient n) st = (Ok (Some z), st1) →
  _fetch_channel W z st1 = (Ok (Some ch), st2) →
  send_result W (length (trace st2)) ch (text_of n) = None →
  delete_result W (S (length (trace st2))) (id n) = Some e →
  _deliver_notifications W m d (n :: rest) st
  = (Raise e,
     add_events [CallSend ch (text_of n); CallDelete (id n)]
       (add_logs (to_discord_message n).2 st2))
  ∧ store (_deliver_notifications W m d (n :: rest) st).2 = store st
  ∧ (∀ row, row ∈ store st →
            notification_of_row row
            ∈ notification_of_row
                <$> order_by_id (store (_deliver_notifications W m d (n :: rest) st).2)).
Proof.
  intros Hres Hf Hsend Hdel.
  destruct (deliver_one_unfold W m d n st) as (z' & logs0 & Hres' & _ & Hone).
  rewrite Hres in Hres'. injection Hres' as <- ->.
  rewrite Hf in Hone. unfold send_and_delete in Hone.
  rewrite Hsend, Hdel in Hone.
  assert (Heq : _deliver_notifications W m d (n :: rest) st
                = (Raise e,
                   add_events [CallSend ch (text_of n); CallDelete (id n)]
                     (add_logs (to_discord_message n).2 st2))).
  { rewrite deliver_cons, Hone. f_equal. unfold add_events. cbn.
    by rewrite <- app_assoc. }
  assert (Hstore : store (_deliver_notifications W m d (n :: rest) st).2 = store st).
  { rewrite Heq. cbn.
    pose proof (fetch_channel_keeps_store W z _ _ _ Hf) as Hs. by rewrite Hs. }
  split; [done|]. split; [done|].
  intros row Hin. rewrite Hstore, fetch_order_permutation.
  by apply list_elem_of_fmap_2.
Qed.

Lemma deliver_delete_fails_witness :
  (_deliver_notifications delete_fails ∅ 7
     [notification_of_row (sample_row 3 "three");
      notification_of_row (sample_row 5 "five")]
     (fresh rows_539)).1
  = Raise (ExceptionInstance "OperationalError")
  ∧ store (_deliver_notifications delete_fails ∅ 7
             [notification_of_row (sample_row 3 "three");
              notification_of_row (sample_row 5 "five")]
             (fresh rows_539)).2
    = rows_539.
Proof.
  destruct (deliver_delete_fails delete_fails ∅ 7
              (notification_of_row (sample_row 3 "three"))
              [notification_of_row (sample_row 5 "five")]
              (fresh rows_539) (fresh rows_539)
              (add_events [CallGetChannel 7]
                 (with_cached 7 {| handle := 7; messageable := true |}
                    (fresh rows_539)))
              7 {| handle := 7; messageable := true |}
              (ExceptionInstance "OperationalError")) as (H & Hs & _);
    [reflexivity..|].
  split; [by rewrite H | exact Hs].
Defined.

(** ** A cycle in which nothing fails *)

Lemma fetch_channel_untroubled W z st :
  untroubled W → ∃ ch, (_fetch_channel W z st).1 = Ok (Some ch).
Proof.
  intros (Hget & _ & _). unfold _fetch_channel. run.
  destruct (channel_cache st !! z) as [ch|]; cbn; [by exists ch|].
  destruct (Hget (length (trace st)) z) as (ch & -> & Hm). cbn.
  rewrite Hm. cbn. by exists ch.
Qed.

Lemma deliver_one_untroubled W m d n st :
  untroubled W →
  (deliver_one W m d n st).1 = Ok ()
  ∧ store (deliver_one W m d n st).2
    = filter (λ row, Models.id row ≠ id n) (store st)
  ∧ ∃ evs, trace (deliver_one W m d n st).2 = trace st ++ evs
           ∧ sent_texts evs = [text_of n] ∧ deleted_ids evs = [id n].
Proof.
  intros HW.
  destruct (deliver_one_unfold W m d n st) as (z & logs0 & _ & _ & ->).
  destruct (fetch_channel_untroubled W z (add_logs logs0 st) HW) as [ch Hch].
  destruct (fetch_channel_footprint W z (add_logs logs0 st))
    as (pre & logs1 & (Hs & Ht & _) & Hpre & _).
  destruct (resolution_not_send z pre Hpre) as (_ & Hnt & Hnd).
  destruct (_fetch_channel W z (add_logs logs0 st)) as [r st2].
  cbn [fst snd] in *. subst r. cbn [add_logs store trace] in Hs, Ht.
  destruct HW as (_ & Hsend & Hdel).
  unfold send_and_delete. rewrite Hsend, Hdel. cbn.
  split; [done|]. split; [by rewrite Hs|].
  exists (pre ++ [CallSend ch (text_of n); CallDelete (id n)]).
  rewrite Ht, <- !app_assoc. split; [done|].
  by rewrite sent_texts_app, deleted_ids_app, Hnt, Hnd.
Qed.

Lemma deliver_untroubled W m d ns st :
  untroubled W →
  (_deliver_notifications W m d ns st).1 = Ok ()
  ∧ (∀ row, row ∈ store (_deliver_notifications W m d ns st).2
            ↔ row ∈ store st ∧ Models.id row ∉ id <$> ns)
  ∧ ∃ evs, trace (_deliver_notifications W m d ns st).2 = trace st ++ evs
           ∧ sent_texts evs = text_of <$> ns ∧ deleted_ids evs = id <$> ns.
Proof.
  intros HW. revert st. induction ns as [|n rest IH]; intros st.
  - split; [done|]. split.
    + intros row. cbn. split; [|tauto]. intros ?. split; [done|]. apply not_elem_of_nil.
    + exists []. by rewrite app_nil_r.
  - rewrite deliver_cons.
    destruct (deliver_one_untroubled W m d n st HW)
      as (Hr & Hs & evs1 & Ht1 & Hst1 & Hd1).
    destruct (deliver_one W m d n st) as [r st1]. cbn [fst snd] in *. subst r.
    destruct (IH st1) as (Hr2 & Hs2 & evs2 & Ht2 & Hst2 & Hd2).
    split; [done|]. split.
    + intros row. rewrite Hs2, Hs, list_elem_of_filter, fmap_cons, not_elem_of_cons.
      tauto.
    + exists (evs1 ++ evs2). rewrite Ht2, Ht1, app_assoc. split; [done|].
      by rewrite sent_texts_app, deleted_ids_app, Hst1, Hst2, Hd1, Hd2.
Qed.

(** X12: When the fetch succeeds, every channel resolves and no send or
    delete fails, one cycle sends the text of every pending row once, in
    ascending id order, deletes each row after its send and leaves the
    store empty. *)
Theorem untroubled_cycle_empties_store (W : World) (m : gmap string Z) (d : Z)
    (st : State) :
  untroubled W →
  select_result W (length (trace st)) = None →
  (poll_once W m d st).1 = Ok ()
  ∧ store (poll_once W m d st).2 = []
  ∧ ∃ evs, trace (poll_once W m d st).2 = trace st ++ CallSelect :: evs
           ∧ sent_texts evs
             = text_of <$> (notification_of_row <$> order_by_id (store st))
           ∧ deleted_ids evs = Models.id <$> order_by_id (store st).
Proof.
  intros HW Hsel.
  unfold poll_once, try_except, poll_body, to_thread.
  unfold bind. rewrite fetch_pending_result, Hsel.
  set (ns := notification_of_row <$> order_by_id (store st)).
  destruct (deliver_untroubled W m d ns (add_events [CallSelect] st) HW)
    as (Hr & Hs & evs & Ht & Hst & Hd).
  assert (Hempty : store (_deliver_notifications W m d ns
                            (add_events [CallSelect] st)).2 = []).
  { apply elem_of_nil_inv. intros row Hin. apply Hs in Hin as [Hin Hnot].
    cbn in Hin. apply Hnot. unfold ns. rewrite ids_of_rows.
    apply list_elem_of_fmap_2.
    unfold order_by_id. by rewrite merge_sort_Permutation. }
  assert (Hdone : match ns with
                  | [] => ret ()
                  | _ :: _ => _deliver_notifications W m d ns
                  end (add_events [CallSelect] st)
                  = _deliver_notifications W m d ns (add_events [CallSelect] st))
    by (by destruct ns).
  rewrite Hdone.
  destruct (_deliver_notifications W m d ns (add_events [CallSelect] st))
    as [r st1]. cbn [fst snd] in *. subst r.
  cbn. split; [done|]. split; [done|].
  exists evs. rewrite Ht. cbn. rewrite <- app_assoc. split; [done|].
  split; [done|]. rewrite Hd. unfold ns. apply ids_of_rows.
Qed.

Lemma untroubled_cycle_empties_store_witness :
  store (poll_once calm ∅ 7 (fresh rows_539)).2 = [].
Proof.
  apply (untroubled_cycle_empties_store calm ∅ 7 (fresh rows_539)).
  - split; [|split]; [|done..]. intros t cid. by eexists.
  - reflexivity.
Defined.

(** ** Through the whole loop *)

Section Lift.

Variable W : World.
Variable m : gmap string Z.
Variable d : Z.

(** A relation between the states before and after that every step of
    the loop respects. *)
Variable R : State → State → Prop.
Hypothesis R_refl : ∀ st, R st st.
Hypothesis R_trans : ∀ st1 st2 st3, R st1 st2 → R st2 st3 → R st1 st3.
Hypothesis R_event : ∀ ev st, ¬ delivery_event ev → R st (add_events [ev] st).
Hypothesis R_log : ∀ logs st, R st (add_logs logs st).
Hypothesis R_deliver : ∀ ns st, R st (_deliver_notifications W m d ns st).2.

Lemma poll_once_lift st : R st (poll_once W m d st).2.
Proof.
  unfold poll_once, try_except, poll_body, to_thread.
  unfold bind. rewrite fetch_pending_result.
  assert (Hsel : R st (add_events [CallSelect] st)) by (apply R_event; tauto).
  destruct (select_result W (length (trace st))) as [e|].
  - destruct (is_Exception e); cbn; [|done].
    eapply R_trans; [exact Hsel | apply R_log].
  - destruct (notification_of_row <$> order_by_id (store st)) as [|n ns]; [done|].
    pose proof (R_deliver (n :: ns) (add_events [CallSelect] st)) as Hd.
    destruct (_deliver_notifications W m d (n :: ns) (add_events [CallSelect] st))
      as [[[]|e] st1]; cbn [snd] in *.
    + by eapply R_trans.
    + destruct (is_Exception e); cbn.
      * eapply R_trans; [exact Hsel|]. eapply R_trans; [exact Hd | apply R_log].
      * by eapply R_trans.
Qed.

Lemma sleep_lift st : R st (sleep W st).2.
Proof.
  unfold sleep. run.
  destruct (sleep_result W (length (trace st))); cbn; apply R_event; tauto.
Qed.

Lemma while_lift cycles st : R st (while_not_closed W m d cycles st).2.
Proof.
  revert st. induction cycles as [|cycles IH]; intros st; [apply R_refl|].
  cbn [while_not_closed]. unfold bind at 1, call.
  assert (Hc : R st (add_events [CallIsClosed] st)) by (apply R_event; tauto).
  destruct (is_closed_result W (length (trace st))); [done|].
  pose proof (poll_once_lift (add_events [CallIsClosed] st)) as Hp.
  unfold bind at 1.
  destruct (poll_once W m d (add_events [CallIsClosed] st)) as [[[]|e] st1];
    cbn [snd] in *; [|by eapply R_trans].
  pose proof (sleep_lift st1) as Hs.
  unfold bind at 1.
  destruct (sleep W st1) as [[[]|e] st2]; cbn [snd] in *.
  - eapply R_trans; [exact Hc|]. eapply R_trans; [exact Hp|].
    eapply R_trans; [exact Hs | apply IH].
  - eapply R_trans; [exact Hc|]. by eapply R_trans.
Qed.

Lemma loop_lift cycles st : R st (_forward_notifications_loop W m d cycles st).2.
Proof.
  unfold _forward_notifications_loop. run.
  assert (Hw : R st (add_events [CallWaitUntilReady] st)) by (apply R_event; tauto).
  destruct (wait_until_ready_result W (length (trace st))); [done|].
  cbn. eapply R_trans; [exact Hw|].
  apply (while_lift cycles (add_events [CallWaitUntilReady] st)).
Qed.

End Lift.

Lemma deliver_store_sublist W m d ns st :
  store (_deliver_notifications W m d ns st).2 `sublist_of` store st.
Proof.
  revert st. induction ns as [|n rest IH]; intros st; [done|].
  rewrite deliver_cons.
  pose proof (deliver_one_store W m d n st) as Hone.
  assert (H1 : store (deliver_one W m d n st).2 `sublist_of` store st).
  { destruct Hone as [->|[-> _]]; [done | apply sublist_filter]. }
  destruct (deliver_one W m d n st) as [[[]|e] st1]; cbn [snd] in *; [|done].
  etrans; [apply IH | exact H1].
Qed.

(** X13: The forwarder only ever removes rows: whatever happens during a run,
    the store afterwards is what is left of the store before, in the same
    order; no row is added or changed. *)
Theorem loop_store_only_shrinks (W : World) (m : gmap string Z) (d : Z)
    (cycles : nat) (st : State) :
  store (_forward_notifications_loop W m d cycles st).2 `sublist_of` store st.
Proof.
  apply (loop_lift W m d (λ st st', store st' `sublist_of` store st)).
  - done.
  - intros st1 st2 st3 H12 H23. by etrans.
  - done.
  - done.
  - intros ns st0. apply deliver_store_sublist.
Qed.

(** X9: During a whole run that starts with a cache of channels that can
    receive text (the empty cache of a new client is one), texts are sent
    only to such channels and only such channels are cached. *)
Theorem loop_only_to_messageable (W : World) (m : gmap string Z) (d : Z)
    (cycles : nat) (st : State) :
  cache_ok st →
  cache_ok (_forward_notifications_loop W m d cycles st).2
  ∧ ∃ evs, trace (_forward_notifications_loop W m d cycles st).2 = trace st ++ evs
           ∧ Forall (λ ch, messageable ch = true) (sent_channels evs).
Proof.
  apply (loop_lift W m d
           (λ st st', cache_ok st →
                      cache_ok st'
                      ∧ ∃ evs, trace st' = trace st ++ evs
                               ∧ Forall (λ ch, messageable ch = true)
                                   (sent_channels evs))).
  - intros st0 Hok. split; [done|]. exists []. by rewrite app_nil_r.
  - intros st1 st2 st3 H12 H23 Hok.
    destruct (H12 Hok) as [Hok2 (evs1 & Ht1 & Hm1)].
    destruct (H23 Hok2) as [Hok3 (evs2 & Ht2 & Hm2)].
    split; [done|]. exists (evs1 ++ evs2). rewrite Ht2, Ht1, app_assoc.
    split; [done|]. rewrite sent_channels_app. by apply Forall_app.
  - intros ev st0 Hev Hok. split; [done|]. exists [ev]. split; [done|].
    destruct ev; cbn in *; try done; by destruct Hev.
  - intros logs st0 Hok. split; [done|]. exists []. cbn. by rewrite app_nil_r.
  - intros ns st0. apply deliver_only_to_messageable.
Qed.

Lemma loop_only_to_messageable_witness :
  cache_ok (_forward_notifications_loop calm ∅ 7 2 (fresh rows_539)).2.
Proof.
  apply (loop_only_to_messageable calm ∅ 7 2 (fresh rows_539)).
  intros cid ch H. vm_compute in H. discriminate H.
Defined.

(** ** The pace of the loop *)

Lemma pace_app ready evs1 evs2 :
  pace ready (evs1 ++ evs2) = pace ready evs1 ≫= λ ready', pace ready' evs2.
Proof.
  revert ready. induction evs1 as [|ev evs1 IH]; intros ready; [done|].
  destruct ev; cbn; try apply IH. by destruct ready.
Qed.

Lemma pace_delivery ready evs :
  Forall delivery_event evs → pace ready evs = Some ready.
Proof. induction 1 as [|ev evs Hev _ IH]; [done|]. by destruct ev. Qed.

Lemma deliver_one_events W m d n st :
  ∃ evs, trace (deliver_one W m d n st).2 = trace st ++ evs
         ∧ Forall delivery_event evs.
Proof.
  destruct (deliver_one_summary W m d n st)
    as (z & pre & evs & logs & Ht & Hpre & _ & _ & _ & Hone).
  exists (pre ++ evs). split; [done|]. apply Forall_app. split.
  - eapply Forall_impl; [exact Hpre|]. by intros ev [-> | ->].
  - inversion Hone; subst; repeat constructor.
Qed.

Lemma deliver_events W m d ns st :
  ∃ evs, trace (_deliver_notifications W m d ns st).2 = trace st ++ evs
         ∧ Forall delivery_event evs.
Proof.
  revert st. induction ns as [|n rest IH]; intros st.
  - exists []. by rewrite app_nil_r.
  - rewrite deliver_cons.
    destruct (deliver_one_events W m d n st) as (evs1 & H1 & Hd1).
    destruct (deliver_one W m d n st) as [[[]|e] st1]; cbn [snd] in *.
    + destruct (IH st1) as (evs2 & H2 & Hd2).
      exists (evs1 ++ evs2). rewrite H2, H1, app_assoc.
      split; [done | by apply Forall_app].
    + by exists evs1.
Qed.

(** One pass through the [try] statement: the fetch, then only events of
    the delivery. *)
Lemma poll_once_events W m d st :
  ∃ evs, trace (poll_once W m d st).2 = trace st ++ CallSelect :: evs
         ∧ Forall delivery_event evs.
Proof.
  unfold poll_once, try_except, poll_body, to_thread.
  unfold bind. rewrite fetch_pending_result.
  destruct (select_result W (length (trace st))) as [e|].
  - exists []. by destruct (is_Exception e).
  - destruct (notification_of_row <$> order_by_id (store st)) as [|n ns];
      [by exists []|].
    destruct (deliver_events W m d (n :: ns) (add_events [CallSelect] st))
      as (evs & Ht & Hd).
    exists evs. split; [|done].
    destruct (_deliver_notifications W m d (n :: ns) (add_events [CallSelect] st))
      as [[[]|e] st1]; cbn [snd] in *.
    + rewrite Ht. cbn. by rewrite <- app_assoc.
    + destruct (is_Exception e); cbn; rewrite Ht; cbn; by rewrite <- app_assoc.
Qed.

Lemma while_paced W m d cycles st :
  ∃ evs, trace (while_not_closed W m d cycles st).2 = trace st ++ evs
         ∧ is_Some (pace true evs).
Proof.
  revert st. induction cycles as [|cycles IH]; intros st.
  { exists []. cbn. by rewrite app_nil_r. }
  cbn [while_not_closed]. unfold bind at 1, call.
  destruct (is_closed_result W (length (trace st))).
  { by exists [CallIsClosed]. }
  destruct (poll_once_events W m d (add_events [CallIsClosed] st))
    as (devs & Hp & Hd).
  assert (Hpace : pace true (CallIsClosed :: CallSelect :: devs) = Some false)
    by (cbn; by apply pace_delivery).
  unfold bind at 1.
  destruct (poll_once W m d (add_events [CallIsClosed] st)) as [[[]|e] st1];
    cbn [snd] in *; cbn [add_events trace] in Hp.
  2:{ exists (CallIsClosed :: CallSelect :: devs).
      rewrite Hp, <- app_assoc. by rewrite Hpace. }
  unfold bind at 1, sleep. run.
  destruct (sleep_result W (length (trace st1))); cbn.
  - exists ((CallIsClosed :: CallSelect :: devs) ++ [CallSleep]).
    rewrite Hp, <- !app_assoc. split; [done|].
    rewrite pace_app, Hpace. done.
  - destruct (IH (add_events [CallSleep] st1)) as (evs & Ht & Hs).
    exists (((CallIsClosed :: CallSelect :: devs) ++ [CallSleep]) ++ evs).
    rewrite Ht. cbn [add_events trace]. rewrite Hp, <- !app_assoc.
    split; [done|]. rewrite app_assoc, pace_app, pace_app, Hpace. done.
Qed.

(** X14: Between two fetches of the database the loop always sleeps, also
    after a cycle that ended in an error: the trace of a run never has a
    second fetch without a sleep since the first. *)
Theorem loop_sleeps_between_fetches (W : World) (m : gmap string Z) (d : Z)
    (cycles : nat) (st : State) :
  ∃ evs, trace (_forward_notifications_loop W m d cycles st).2 = trace st ++ evs
         ∧ is_Some (pace true evs).
Proof.
  unfold _forward_notifications_loop. run.
  destruct (wait_until_ready_result W (length (trace st))); cbn.
  { by exists [CallWaitUntilReady]. }
  destruct (while_paced W m d cycles (add_events [CallWaitUntilReady] st))
    as (evs & Ht & Hs).
  exists (CallWaitUntilReady :: evs). split; [|done].
  rewrite Ht. cbn. by rewrite <- app_assoc.
Qed.

(** ** The end of the loop *)

Lemma while_unfold W m d cycles st :
  while_not_closed W m d (S cycles) st
  = if is_closed_result W (length (trace st)) then
      (Ok LoopExited, add_events [CallIsClosed] st)
    else
      match poll_once W m d (add_events [CallIsClosed] st) with
      | (Ok _, st1) =>
          match sleep W st1 with
          | (Ok _, st2) => while_not_closed W m d cycles st2
          | (Raise e, st2) => (Raise e, st2)
          end
      | (Raise e, st1) => (Raise e, st1)
      end.
Proof.
  cbn [while_not_closed]. unfold bind, call.
  by destruct (is_closed_result W (length (trace st))).
Qed.

Lemma while_exit W m d cycles st :
  (while_not_closed W m d cycles st).1 = Ok LoopExited →
  ∃ pre, trace (while_not_closed W m d cycles st).2 = pre ++ [CallIsClosed]
         ∧ is_closed_result W (length pre) = true.
Proof.
  revert st. induction cycles as [|cycles IH]; intros st; [done|].
  rewrite while_unfold.
  destruct (is_closed_result W (length (trace st))) eqn:Hc.
  { intros _. by exists (trace st). }
  destruct (poll_once W m d (add_events [CallIsClosed] st)) as [[[]|e] st1];
    [|done].
  destruct (sleep W st1) as [[[]|e] st2]; [|done].
  apply IH.
Qed.

(** X15: The loop returns only after [is_closed()] answered true, and makes
    no call after that answer. *)
Theorem loop_exits_when_closed (W : World) (m : gmap string Z) (d : Z)
    (cycles : nat) (st : State) :
  (_forward_notifications_loop W m d cycles st).1 = Ok LoopExited →
  ∃ pre, trace (_forward_notifications_loop W m d cycles st).2
         = pre ++ [CallIsClosed]
         ∧ is_closed_result W (length pre) = true.
Proof.
  unfold _forward_notifications_loop. run.
  destruct (wait_until_ready_result W (length (trace st))); [done|].
  cbn. apply while_exit.
Qed.

Lemma loop_exits_when_closed_witness :
  ∃ pre, trace (_forward_notifications_loop closes_later ∅ 7 5 (fresh [])).2
         = pre ++ [CallIsClosed]
         ∧ is_closed_result closes_later (length pre) = true.
Proof.
  apply (loop_exits_when_closed closes_later ∅ 7 5 (fresh [])). reflexivity.
Defined.

(** ** Start-up *)

Section MainFacts.

Variable F : Type.
Variable float : string → option F.
Variable le_zero : F → bool.
Variable basicConfig : string → option raised.

(** X16: [main] runs the client only with settings that passed every check:
    a non-empty token, an integer default channel id, a poll interval
    that is a number and not [<= 0] (5 when unset), the four database
    settings present and non-empty; the channel map is whatever the
    parser made of [DISCORD_CHANNEL_MAP], and the warnings are the
    parser's. *)
Theorem main_starts_validated (env : gmap string string)
    (args : ClientArgs F) (warnings : list LogRecord) :
  main F float le_zero basicConfig env = (Started args, warnings) →
  (env !! "DISCORD_BOT_TOKEN" = Some (arg_token args)
   ∧ arg_token args ≠ EmptyString)
  ∧ (∃ s, env !! "DISCORD_DEFAULT_CHANNEL_ID" = Some s
          ∧ PyStr.int s = Some (arg_default_channel_id args))
  ∧ (float (default "5" (env !! "PUSH_POLL_INTERVAL")) = Some (arg_poll_interval args)
     ∧ le_zero (arg_poll_interval args) = false)
  ∧ (env !! "DATABASE_USERNAME" = Some (db_username (arg_session_factory args))
     ∧ env !! "DATABASE_PASSWORD" = Some (db_password (arg_session_factory args))
     ∧ env !! "DATABASE_HOST" = Some (db_host (arg_session_factory args))
     ∧ env !! "DATABASE" = Some (db_database (arg_session_factory args))
     ∧ db_username (arg_session_factory args) ≠ EmptyString
     ∧ db_password (arg_session_factory args) ≠ EmptyString
     ∧ db_host (arg_session_factory args) ≠ EmptyString
     ∧ db_database (arg_session_factory args) ≠ EmptyString)
  ∧ parse_channel_map (env !! "DISCORD_CHANNEL_MAP")
    = (arg_channel_map args, warnings).
Proof.
  unfold main, _configure_logging, _read_int_env, create_session_factory, getenv.
  destruct (basicConfig _); [done|].
  destruct (env !! "DISCORD_BOT_TOKEN") as [[|c token]|]; cbn [PyStr.truthy negb];
    [done| |done].
  destruct (env !! "DISCORD_DEFAULT_CHANNEL_ID") as [s|]; [|done].
  destruct (PyStr.int s) as [z|] eqn:Hint; [|done].
  destruct (float _) as [x|] eqn:Hfloat; [|done].
  destruct (le_zero x) eqn:Hle; [done|].
  destruct (env !! "DATABASE_USERNAME") as [[|c1 u]|]; cbn; try done.
  destruct (env !! "DATABASE_PASSWORD") as [[|c2 p]|]; cbn; try done.
  destruct (env !! "DATABASE_HOST") as [[|c3 h]|]; cbn; try done.
  destruct (env !! "DATABASE") as [[|c4 db]|]; cbn; try done.
  destruct (parse_channel_map (env !! "DISCORD_CHANNEL_MAP")) as [cm ws].
  intros [= <- <-]. cbn. split; [done|]. split; [by exists s|].
  repeat split; done.
Qed.

(** X17: What is in [DISCORD_CHANNEL_MAP] never decides whether [main]
    starts: with any other value, or none, it fails with the same error
    or starts as well. *)
Theorem main_ignores_channel_map (env : gmap string string) (raw : string) :
  match (main F float le_zero basicConfig (<["DISCORD_CHANNEL_MAP" := raw]> env)).1,
        (main F float le_zero basicConfig (delete "DISCORD_CHANNEL_MAP" env)).1 with
  | Failed e1, Failed e2 => e1 = e2
  | Started a1, Started a2 =>
      arg_token a1 = arg_token a2
      ∧ arg_session_factory a1 = arg_session_factory a2
      ∧ arg_default_channel_id a1 = arg_default_channel_id a2
      ∧ arg_poll_interval a1 = arg_poll_interval a2
      ∧ arg_channel_map a1 = (parse_channel_map (Some raw)).1
      ∧ arg_channel_map a2 = ∅
  | _, _ => False
  end.
Proof.
  unfold main, _configure_logging, _read_int_env, create_session_factory, getenv.
  rewrite lookup_insert_eq, lookup_delete_eq.
  rewrite !lookup_insert_ne, !lookup_delete_ne by done.
  destruct (basicConfig _); [done|].
  destruct (env !! "DISCORD_BOT_TOKEN") as [[|c token]|]; cbn [PyStr.truthy negb];
    [done| |done].
  destruct (env !! "DISCORD_DEFAULT_CHANNEL_ID") as [s|]; [|done].
  destruct (PyStr.int s) as [z|]; [|done].
  destruct (float _) as [x|]; [|done].
  destruct (le_zero x); [done|].
  destruct (env !! "DATABASE_USERNAME") as [[|c1 u]|]; cbn -[parse_channel_map]; try done.
  destruct (env !! "DATABASE_PASSWORD") as [[|c2 p]|]; cbn -[parse_channel_map]; try done.
  destruct (env !! "DATABASE_HOST") as [[|c3 h]|]; cbn -[parse_channel_map]; try done.
  destruct (env !! "DATABASE") as [[|c4 db]|]; cbn -[parse_channel_map]; try done.
  destruct (parse_channel_map (Some raw)) as [cm ws]. by cbn.
Qed.

End MainFacts.

Lemma main_starts_validated_witness :
  parse_channel_map (sample_env !! "DISCORD_CHANNEL_MAP")
  = ({["known" := 42]}, [WarnMalformedEntry "oops"]).
Proof.
  refine (proj2 (proj2 (proj2 (proj2
    (main_starts_validated Z PyStr.int (λ x, x <=? 0) (λ _, None) sample_env
       {| arg_token := "t0ken";
          arg_session_factory := _create_engine "u" "p" "h" "db";
          arg_channel_map := {["known" := 42]};
          arg_default_channel_id := 7;
          arg_poll_interval := 5 |}
       [WarnMalformedEntry "oops"] _))))).
  by vm_compute.
Defined.
